(** * net-utils: port classification, address parsing and retry configuration

    A shallow embedding of the Go packages [network] (port.go, address.go)
    and [config] (client.go), with the properties of their specification
    stated and proved over it.

    Conventions.
    - [uint64], [int], [int64] and [time.Duration] values are integers in [Z];
      where Go arithmetic can wrap (in [strconv.ParseUint]) the reduction
      modulo [2^64] is written out.
    - Go strings are byte strings: [string] of the standard library.
    - A pointer or interface value that may be [nil] is an [option].
    - A call that would panic (a method call on a nil interface) yields [None]. *)

From Stdlib Require Import ZArith Lia Bool List Ascii String.
From stdpp Require Import base option gmap strings.
Import ListNotations.

Local Open Scope string_scope.
Local Open Scope Z_scope.

(* ===================================================================== *)
(** * Go standard library: the [strings] functions used by the packages  *)
(* ===================================================================== *)

Module GoStrings.

(** [s[:n]] *)
Fixpoint slice_to (n : nat) (s : string) : string :=
  match n, s with
  | S n', String c r => String c (slice_to n' r)
  | _, _ => EmptyString
  end.

(** [s[n:]] *)
Fixpoint slice_from (n : nat) (s : string) : string :=
  match n, s with
  | S n', String _ r => slice_from n' r
  | _, _ => s
  end.

(** [strings.HasPrefix]: [len(s) >= len(prefix) && s[:len(prefix)] == prefix]. *)
Definition HasPrefix (s pre : string) : bool :=
  (String.length pre <=? String.length s)%nat
  && String.eqb (slice_to (String.length pre) s) pre.

(** [strings.HasSuffix]:
    [len(s) >= len(suffix) && s[len(s)-len(suffix):] == suffix]. *)
Definition HasSuffix (s suf : string) : bool :=
  (String.length suf <=? String.length s)%nat
  && String.eqb (slice_from (String.length s - String.length suf) s) suf.

(** [strings.TrimPrefix] *)
Definition TrimPrefix (s pre : string) : string :=
  if HasPrefix s pre then slice_from (String.length pre) s else s.

(** [strings.TrimSuffix] *)
Definition TrimSuffix (s suf : string) : string :=
  if HasSuffix s suf then slice_to (String.length s - String.length suf) s else s.

(** [strings.Index]: the position of the first occurrence of [substr] in
    [s]; [None] stands for Go's [-1]. *)
Fixpoint Index (s substr : string) : option nat :=
  if HasPrefix s substr then Some O
  else match s with
       | EmptyString => None
       | String _ r => option_map S (Index r substr)
       end.

(** The loop of [strings.genSplit] for a non-empty separator: cut at the
    first occurrence of [sep] and go on with what follows it.  Every cut
    consumes at least one byte, so [length s] rounds are enough
    (lemma [Split_unfold]). *)
Fixpoint genSplit (fuel : nat) (s sep : string) : list string :=
  match fuel with
  | O => [s]
  | S fuel' =>
      match Index s sep with
      | None => [s]
      | Some m =>
          slice_to m s :: genSplit fuel' (slice_from (m + String.length sep) s) sep
      end
  end.

(** [strings.Split(s, sep)] for a non-empty [sep] (the packages only pass
    one-byte separators). *)
Definition Split (s sep : string) : list string :=
  genSplit (String.length s) s sep.

(** What [Split] computes for a one-byte separator, read off byte by byte
    (lemma [Split_byte]): a separator byte closes the current segment. *)
Fixpoint splitByte (c : ascii) (s : string) : list string :=
  match s with
  | EmptyString => [EmptyString]
  | String d r =>
      if Ascii.eqb d c then EmptyString :: splitByte c r
      else match splitByte c r with
           | h :: t => String d h :: t
           | [] => [String d EmptyString]
           end
  end.

(** [strings.Join] *)
Fixpoint Join (elems : list string) (sep : string) : string :=
  match elems with
  | [] => EmptyString
  | [e] => e
  | e :: rest => e ++ sep ++ Join rest sep
  end.

(** The ASCII path of [strings.ToLower]. *)
Definition isUpper (c : ascii) : bool :=
  let n := nat_of_ascii c in (65 <=? n)%nat && (n <=? 90)%nat.

Definition lowerByte (c : ascii) : ascii :=
  if isUpper c then ascii_of_nat (nat_of_ascii c + 32) else c.

Fixpoint lowerBytes (s : string) : string :=
  match s with
  | EmptyString => EmptyString
  | String c r => String (lowerByte c) (lowerBytes r)
  end.

(** [c >= utf8.RuneSelf] never holds: the string is ASCII only. *)
Fixpoint isASCII (s : string) : bool :=
  match s with
  | EmptyString => true
  | String c r => (nat_of_ascii c <? 128)%nat && isASCII r
  end.

Section ToLower.

(** [strings.Map(unicode.ToLower, s)], the path [strings.ToLower] takes
    when [s] has a byte outside ASCII; the Unicode tables are not modelled. *)
Variable mapUnicodeToLower : string -> string.

(** [strings.ToLower] *)
Definition ToLower (s : string) : string :=
  if isASCII s then lowerBytes s else mapUnicodeToLower s.

End ToLower.

End GoStrings.

(* ===================================================================== *)
(** * Go standard library: [strconv.ParseUint] and decimal formatting    *)
(* ===================================================================== *)

Module GoStrconv.

(** The two errors a [*strconv.NumError] wraps. *)
Inductive numErr := ErrSyntax | ErrRange.

Definition maxUint64 : Z := 2 ^ 64 - 1.

Definition wrap64 (n : Z) : Z := n mod 2 ^ 64.

Definition byteZ (c : ascii) : Z := Z.of_nat (nat_of_ascii c).

(** [lower(c)] of strconv: [c | ('x' - 'X')]. *)
Definition lower (c : Z) : Z := Z.lor c 32.

(** The loop of [ParseUint(s, 10, 64)] over the bytes of [s], from the
    accumulator [n]: [cutoff = maxUint64/10 + 1], [maxVal = 1<<64 - 1],
    and both the product and the sum are computed in [uint64]. *)
Fixpoint parseLoop (cs : string) (n : Z) : Z * option numErr :=
  match cs with
  | EmptyString => (n, None)
  | String ch r =>
      let c := byteZ ch in
      let digit :=
        if (48 <=? c) && (c <=? 57) then Some (c - 48)
        else if (97 <=? lower c) && (lower c <=? 122) then Some (lower c - 97 + 10)
        else None in
      match digit with
      | None => (0, Some ErrSyntax)
      | Some d =>
          if 10 <=? d then (0, Some ErrSyntax)
          else if maxUint64 / 10 + 1 <=? n then (maxUint64, Some ErrRange)
          else
            let n' := wrap64 (n * 10) in
            let n1 := wrap64 (n' + d) in
            if (n1 <? n') || (maxUint64 <? n1) then (maxUint64, Some ErrRange)
            else parseLoop r n1
      end
  end.

(** [strconv.ParseUint(s, 10, 64)] *)
Definition ParseUint (s : string) : Z * option numErr :=
  match s with
  | EmptyString => (0, Some ErrSyntax)
  | _ => parseLoop s 0
  end.

Definition digitChar (d : Z) : ascii := ascii_of_nat (Z.to_nat (48 + d)).

(** Decimal digits of [n], least significant first, pushed in front of
    [acc]; a [uint64] has at most 20 of them. *)
Fixpoint formatBits (fuel : nat) (n : Z) (acc : string) : string :=
  match fuel with
  | O => acc
  | S fuel' =>
      let acc' := String (digitChar (n mod 10)) acc in
      if n / 10 =? 0 then acc' else formatBits fuel' (n / 10) acc'
  end.

(** The rendering of a [uint64] by [strconv.FormatUint(n, 10)] and by the
    verb [%d] of [fmt]. *)
Definition FormatUint (n : Z) : string := formatBits 20 n EmptyString.

(** What the specification calls a valid non-negative base-10 integer: a
    non-empty string of decimal digits, with its value. *)
Definition isDigit (ch : ascii) : bool :=
  (48 <=? byteZ ch) && (byteZ ch <=? 57).

Fixpoint decimalFrom (cs : string) (n : Z) : option Z :=
  match cs with
  | EmptyString => Some n
  | String ch r =>
      if isDigit ch then decimalFrom r (n * 10 + (byteZ ch - 48)) else None
  end.

Definition decimalValue (s : string) : option Z :=
  match s with
  | EmptyString => None
  | _ => decimalFrom s 0
  end.

End GoStrconv.

(* ===================================================================== *)
(** * Package [network]                                                  *)
(* ===================================================================== *)

Module Network.
Import GoStrings GoStrconv.

(** ** port.go *)

(** [type portType int] with its three constants.  The type is unexported
    "to ensure consistency": callers only have [System], [Registered] and
    [Dynamic], the keys of [ranges]. *)
Inductive portType := System | Registered | Dynamic.

(** The [iota] value of a constant. *)
Definition portType_int (pt : portType) : Z :=
  match pt with System => 0 | Registered => 1 | Dynamic => 2 end.

(** [type portTypeRange struct { min, max portType }] *)
Record portTypeRange := rangeOf { tr_min : portType; tr_max : portType }.

(** [type port uint64] *)
Definition port := Z.

Definition MinSystem : port := 0.
Definition MaxSystem : port := 0 + 1023.
Definition MinRegistered : port := 1 + 1023.
Definition MaxRegistered : port := 0 + 49151.
Definition MinDynamic : port := 1 + 49151.
Definition MaxDynamic : port := 0 + 65535.
Definition Invalid : port := 1 + 65535.

Definition All := rangeOf System Dynamic.
Definition NonSystem := rangeOf Registered Dynamic.
Definition NonDynamic := rangeOf System Registered.

(** [type portRange struct { min, max port }] *)
Record portRange := mkPortRange { pr_min : port; pr_max : port }.

(** [var ranges = map[portType]*portRange{...}]: one entry per constant. *)
Definition ranges (pt : portType) : portRange :=
  match pt with
  | System => mkPortRange MinSystem MaxSystem
  | Registered => mkPortRange MinRegistered MaxRegistered
  | Dynamic => mkPortRange MinDynamic MaxDynamic
  end.

Definition rangeOfSame (pt : portType) : portTypeRange := rangeOf pt pt.

Definition IsSet (p : port) : bool := p <? Invalid.

(** [ptr != nil && p >= ranges[ptr.min].min && p <= ranges[ptr.max].max] *)
Definition IsValidForTypeRange (p : port) (ptr : option portTypeRange) : bool :=
  match ptr with
  | None => false
  | Some r => (pr_min (ranges (tr_min r)) <=? p) && (p <=? pr_max (ranges (tr_max r)))
  end.

Definition IsValid (p : port) : bool := IsValidForTypeRange p (Some All).

Definition IsValidForType (p : port) (pt : portType) : bool :=
  IsValidForTypeRange p (Some (rangeOfSame pt)).

Definition Uint64 (p : port) : Z := p.

(** The interface [Port]: [None] is the nil interface value, [Some p] holds
    a [port].  A method call on the nil interface panics. *)
Definition Port := option port.

Definition Port_IsSet (p : Port) : option bool := IsSet <$> p.
Definition Port_Uint64 (p : Port) : option Z := Uint64 <$> p.

(** The Go [error] values the packages build or pass on. *)
Inductive error :=
| NumError (func num : string) (err : numErr)   (* from strconv.ParseUint *)
| Errorf (msg : string).                       (* from fmt.Errorf *)

(** An argument of a type parameter [PI PortInput], with
    [PortInput interface { ~uint64 | ~string }]: the constraint admits
    [string] and [uint64] themselves and every defined type over one of
    them, such as [port]. *)
Inductive PortInput :=
| OfString (v : string)
| OfUint64 (v : Z)
| OfDefinedString (v : string)
| OfDefinedUint64 (v : Z).

(** [NewPortForTypeRange]: the type switch on [any(pi)] has the cases
    [string] and [uint64] and no default, so with any other dynamic type
    [n] keeps its zero value and [err] stays nil. *)
Definition NewPortForTypeRange (pi : PortInput) (ptr : option portTypeRange)
  : Port * option error :=
  let '(n, err) :=
    match pi with
    | OfString v =>
        let '(n, e) := ParseUint v in (n, NumError "ParseUint" v <$> e)
    | OfUint64 v => (v, None)
    | _ => (0, None)
    end in
  match err with
  | None =>
      let candidate : port := n in
      if IsValidForTypeRange candidate ptr then (Some candidate, None)
      else (None, Some (Errorf ("invalid port " ++ FormatUint n)))
  | Some e => (None, Some e)
  end.

Definition NewPort (pi : PortInput) : Port * option error :=
  NewPortForTypeRange pi (Some All).

Definition NewPortForType (pi : PortInput) (pt : portType) : Port * option error :=
  NewPortForTypeRange pi (Some (rangeOfSame pt)).

(** ** address.go *)

(** Modelled from the spec: the constants [consts.Colon],
    [consts.LeftSquareBracket] and [consts.RightSquareBracket] of the
    imported package [retry-config/consts]; the input is split on [:] and
    the brackets are [[] and []]. *)
Definition Colon : string := ":".
Definition LeftSquareBracket : string := "[".
Definition RightSquareBracket : string := "]".

(** [elems[i]], in range at every use (lemma [parseAddressPort_in_range]). *)
Definition at_index (elems : list string) (i : nat) : string :=
  nth i elems EmptyString.

Definition parseAddressPort (s : string) : string * string * bool :=
  let elems := Split s Colon in
  let l := List.length elems in
  let '(addr, p, hasPort) :=
    if (l <? 2)%nat then (s, EmptyString, false)
    else
      let n := (l - 2)%nat in
      if (n =? 0)%nat
         || (HasPrefix (at_index elems 0) LeftSquareBracket
             && HasSuffix (at_index elems n) RightSquareBracket)
      then (Join (firstn (n + 1) elems) Colon, at_index elems (n + 1), true)
      else (Join (firstn (n + 1 + 1) elems) Colon, EmptyString, false) in
  (TrimSuffix (TrimPrefix addr LeftSquareBracket) RightSquareBracket, p, hasPort).

(** The tier table read as the specification words it: [p] lies in the
    union of the intervals of the tiers between [r.min] and [r.max]. *)
Definition tiers : list portType := [System; Registered; Dynamic].

(** The interval of each tier as the specification states it:
    System 0-1023, Registered 1024-49151, Dynamic 49152-65535. *)
Definition tierInterval (t : portType) : Z * Z :=
  match t with
  | System => (0, 1023)
  | Registered => (1024, 49151)
  | Dynamic => (49152, 65535)
  end.

Definition inTier (p : port) (t : portType) : bool :=
  (fst (tierInterval t) <=? p) && (p <=? snd (tierInterval t)).

Definition tierBetween (r : portTypeRange) (t : portType) : bool :=
  (portType_int (tr_min r) <=? portType_int t)
  && (portType_int t <=? portType_int (tr_max r)).

Definition inTierUnion (p : port) (r : portTypeRange) : bool :=
  existsb (fun t => tierBetween r t && inTier p t) tiers.

(** The second-to-last segment, when there are at least two. *)
Definition secondToLast (elems : list string) : option string :=
  match rev elems with
  | _ :: x :: _ => Some x
  | _ => None
  end.

(** What the specification calls the bracket pattern: the first segment
    starts with [[] and the second-to-last one ends with []]. *)
Definition bracketPattern (elems : list string) : Prop :=
  exists first prev,
    head elems = Some first /\ secondToLast elems = Some prev
    /\ HasPrefix first LeftSquareBracket = true
    /\ HasSuffix prev RightSquareBracket = true.

(** An instance of the IP-literal oracle for the examples: the IPv4
    dotted-decimal literals that [net.ParseIP] accepts (four decimal
    fields of value at most 255, none with a leading zero).  It knows no
    IPv6 literal. *)
Definition ipv4Field (f : string) : bool :=
  match decimalValue f with
  | Some v => (v <=? 255) && negb (HasPrefix f "0" && (1 <? String.length f)%nat)
  | None => false
  end.

Definition dottedQuad (s : string) : bool :=
  let fields := Split s "." in
  (List.length fields =? 4)%nat && forallb ipv4Field fields.

Section Address.

(** [net.ParseIP] of the Go standard library, as far as the package looks
    at it: whether the result is non-nil. *)
Variable ParseIP : string -> bool.

Definition ParseAddressForPortTypeRange (s : string) (ptr : option portTypeRange)
  : string * Port * option error :=
  let '(addr, po, hasPort) := parseAddressPort s in
  if negb (ParseIP addr)
  then (EmptyString, None, Some (Errorf ("invalid IP address '" ++ addr ++ "'")))
  else
    let '(p, err) :=
      if hasPort then NewPortForTypeRange (OfString po) ptr else (None, None) in
    let address := match err with None => addr | Some _ => EmptyString end in
    (address, p, err).

Definition ParseAddress (s : string) : string * Port * option error :=
  ParseAddressForPortTypeRange s (Some All).

Definition ParseAddressForPortType (s : string) (pt : portType)
  : string * Port * option error :=
  ParseAddressForPortTypeRange s (Some (rangeOfSame pt)).

End Address.

End Network.

(* ===================================================================== *)
(** * Package [config]                                                   *)
(* ===================================================================== *)

Module Config.
Import GoStrings.

Definition Empty : string := EmptyString.
Definition DefaultPolicy : string := "default".
Definition ExponentialPolicy : string := "exponential".
Definition JitterPolicy : string := "jitter".
Definition ConstantPolicy : string := "const".

(** The function values of type [rhttp.Backoff] the package refers to:
    [rhttp.DefaultBackoff], [rhttp.LinearJitterBackoff] and its own
    [ConstantBackoff]. *)
Inductive Backoff := DefaultBackoff | LinearJitterBackoff | ConstantBackoff.

(** [ConstantBackoff]: the wait is always the minimum. *)
Definition ConstantBackoff_apply (min max : Z) (attempt : Z) : Z := min.

(** [var policies = map[string]rhttp.Backoff{...}]; a missing key reads as
    the nil function, here [None]. *)
Definition policies : gmap string Backoff :=
  <[Empty := DefaultBackoff]>
  (<[DefaultPolicy := DefaultBackoff]>
  (<[ExponentialPolicy := DefaultBackoff]>
  (<[JitterPolicy := LinearJitterBackoff]>
  (<[ConstantPolicy := ConstantBackoff]> ∅)))).

(** An operand of [fmt.Errorf]. *)
Inductive fmtArg :=
| ArgDuration (d : Z)
| ArgString (s : string)
| ArgInt (n : Z).

(** An error built by [fmt.Errorf(format, args...)]. *)
Inductive error := Errorf (format : string) (args : list fmtArg).

Record RetryConfig := mkRetryConfig {
  WaitMin : Z;              (* time.Duration *)
  WaitMax : Z;              (* time.Duration *)
  MaxAttempts : Z;          (* int *)
  Policy : string;
  backoff : option Backoff;
  isValid : bool
}.

Definition validDurations (d1 d2 : Z) (equalAllowed : bool) : option error :=
  let '(test, operator) :=
    if equalAllowed then (d1 <=? d2, ">") else (d1 <? d2, ">=") in
  if negb test
  then Some (Errorf "invalid durations: %v %s %v"
               [ArgDuration d1; ArgString operator; ArgDuration d2])
  else None.

Definition validPositive (n : Z) : option error :=
  if n <=? 0 then Some (Errorf "number %d must be positive" [ArgInt n]) else None.

(** The policy names of the table. *)
Definition knownPolicies : list string :=
  [Empty; DefaultPolicy; ExponentialPolicy; JitterPolicy; ConstantPolicy].




(** The configuration with another policy name. *)
Definition withPolicy (rc : RetryConfig) (name : string) : RetryConfig :=
  mkRetryConfig (WaitMin rc) (WaitMax rc) (MaxAttempts rc) name
    (backoff rc) (isValid rc).

Section Validate.

Variable mapUnicodeToLower : string -> string.

(** The lookup of [Validate]: [policies[strings.ToLower(rc.Policy)]]. *)
Definition lookupPolicy (name : string) : option Backoff :=
  policies !! ToLower mapUnicodeToLower name.

(** The method [Validate] on a non-nil receiver: the configuration as
    the call leaves it, and the returned error. *)
Definition validate (rc : RetryConfig) : RetryConfig * option error :=
  let '(rc, err) :=
    match validDurations 0 (WaitMin rc) false with
    | Some e => (rc, Some e)
    | None =>
        match validDurations (WaitMin rc) (WaitMin rc) true with
        | Some e => (rc, Some e)
        | None =>
            match validPositive (MaxAttempts rc) with
            | Some e => (rc, Some e)
            | None =>
                let b := lookupPolicy (Policy rc) in
                let rc := mkRetryConfig (WaitMin rc) (WaitMax rc) (MaxAttempts rc)
                            (Policy rc) b (isValid rc) in
                match b with
                | None => (rc, Some (Errorf "invalid backoff policy %s"
                                       [ArgString (Policy rc)]))
                | Some _ => (rc, None)
                end
            end
        end
    end in
  (mkRetryConfig (WaitMin rc) (WaitMax rc) (MaxAttempts rc) (Policy rc)
     (backoff rc) (match err with None => true | Some _ => false end),
   err).

(** The method [Validate] of a [RetryConfig] pointer: a nil receiver is left alone. *)
Definition Validate (rc : option RetryConfig) : option RetryConfig * option error :=
  match rc with
  | None => (None, None)
  | Some c => let '(c', err) := validate c in (Some c', err)
  end.

End Validate.

(** The [logger interface{}] argument of [NewClient], as its type switch
    reads it: nil, a value that implements [rhttp.Logger] or
    [rhttp.LeveledLogger], or a value of any other type (with the name the
    verb [%T] prints). *)
Inductive loggerArg :=
| NilLogger
| StdLogger
| LeveledLogger
| OtherLogger (typeName : string).

Section NewClient.

(** [http.RoundTripper] *)
Variable RoundTripper : Type.

(** The fields of [rhttp.Client] that [NewClient] writes. *)
Record Client := mkClient {
  RetryWaitMin : Z;
  RetryWaitMax : Z;
  RetryMax : Z;
  Backoff_ : option Backoff;
  HTTPClient_Transport : option RoundTripper;
  Logger : loggerArg
}.

(** [rhttp.NewClient()], the client of the library with its defaults. *)
Variable defaultClient : Client.

(** The method [NewClient]; the returned [http.Client] is the standard
    client around the configured [rhttp.Client], which stands for it here. *)
Definition NewClient (rc : option RetryConfig) (rt : RoundTripper) (logger : loggerArg)
  : option Client * option error :=
  let c := defaultClient in
  let configured :=
    match rc with
    | Some r =>
        if negb (isValid r)
        then inl (Errorf "retry configuration is not valid" [])
        else inr (mkClient (WaitMin r) (WaitMax r) (MaxAttempts r) (backoff r)
                    (HTTPClient_Transport c) (Logger c))
    | None => inr c
    end in
  match configured with
  | inl e => (None, Some e)
  | inr c =>
      let c := mkClient (RetryWaitMin c) (RetryWaitMax c) (RetryMax c) (Backoff_ c)
                 (Some rt) (Logger c) in
      match logger with
      | OtherLogger t => (None, Some (Errorf "invalid logger type %T" [ArgString t]))
      | _ =>
          (Some (mkClient (RetryWaitMin c) (RetryWaitMax c) (RetryMax c) (Backoff_ c)
                   (HTTPClient_Transport c) logger), None)
      end
  end.

End NewClient.

(** A configuration and a library client for the examples: waits of 1s
    and 30s, 4 attempts. *)
Definition sampleConfig : RetryConfig :=
  mkRetryConfig 1000000000 30000000000 4 "Jitter" None false.

Definition sampleDefaultClient : Client unit :=
  mkClient unit 1000000000 30000000000 4 (Some DefaultBackoff) None NilLogger.

End Config.

(* ===================================================================== *)
(** * Facts about the string functions                                   *)
(* ===================================================================== *)

Module GoStringsFacts.
Import GoStrings.

Lemma slice_to_from (n : nat) (s : string) :
  (slice_to n s ++ slice_from n s)%string = s.
Proof.
  revert s; induction n as [|n IH]; intros [|c r]; try reflexivity.
  change (String c (slice_to n r ++ slice_from n r)%string = String c r).
  now rewrite IH.
Qed.

Lemma slice_from_length (n : nat) (s : string) :
  String.length (slice_from n s) = (String.length s - n)%nat.
Proof.
  revert s; induction n as [|n IH]; intros [|c r]; simpl; try lia.
  apply IH.
Qed.

Lemma slice_to_all (s : string) : slice_to (String.length s) s = s.
Proof. induction s as [|c r IH]; simpl; [reflexivity | now rewrite IH]. Qed.

Lemma slice_from_all (s : string) : slice_from (String.length s) s = EmptyString.
Proof. induction s as [|c r IH]; simpl; [reflexivity | exact IH]. Qed.

Lemma HasPrefix_true (s pre : string) :
  HasPrefix s pre = true ->
  s = (pre ++ slice_from (String.length pre) s)%string
  /\ (String.length pre <= String.length s)%nat.
Proof.
  unfold HasPrefix. intros H.
  apply andb_true_iff in H as [Hlen Heq].
  apply Nat.leb_le in Hlen. apply String.eqb_eq in Heq.
  split; [|exact Hlen].
  rewrite <- Heq at 1. symmetry. apply slice_to_from.
Qed.

Lemma HasPrefix_empty (pre : string) :
  pre <> EmptyString -> HasPrefix EmptyString pre = false.
Proof. destruct pre; [congruence | reflexivity]. Qed.

Lemma Index_unfold (s sep : string) :
  Index s sep =
  if HasPrefix s sep then Some O
  else match s with
       | EmptyString => None
       | String _ r => option_map S (Index r sep)
       end.
Proof. destruct s; reflexivity. Qed.

Lemma Index_Some (s sep : string) (m : nat) :
  Index s sep = Some m ->
  s = (slice_to m s ++ sep ++ slice_from (m + String.length sep) s)%string
  /\ (m + String.length sep <= String.length s)%nat.
Proof.
  revert m; induction s as [|c r IH]; intros m; rewrite Index_unfold.
  - destruct (HasPrefix EmptyString sep) eqn:Hp; [|discriminate].
    intros [= <-]. now apply HasPrefix_true in Hp.
  - destruct (HasPrefix (String c r) sep) eqn:Hp.
    + intros [= <-]. now apply HasPrefix_true in Hp.
    + destruct (Index r sep) as [m'|] eqn:Hi; [|discriminate].
      intros [= <-]. destruct (IH m' eq_refl) as [Heq Hlen].
      split; [|simpl; lia].
      change (String c r
              = String c (slice_to m' r ++ sep
                          ++ slice_from (m' + String.length sep) r)%string).
      f_equal. exact Heq.
Qed.

Lemma Index_empty (sep : string) :
  sep <> EmptyString -> Index EmptyString sep = None.
Proof. intros H. rewrite Index_unfold, HasPrefix_empty by exact H. reflexivity. Qed.

Lemma genSplit_nonempty (fuel : nat) (s sep : string) :
  genSplit fuel s sep <> [].
Proof. destruct fuel; simpl; [|destruct (Index s sep)]; discriminate. Qed.

Lemma Join_cons (e : string) (rest : list string) (sep : string) :
  rest <> [] -> Join (e :: rest) sep = (e ++ sep ++ Join rest sep)%string.
Proof. destruct rest; [congruence | reflexivity]. Qed.

Lemma Join_genSplit (fuel : nat) (s sep : string) :
  Join (genSplit fuel s sep) sep = s.
Proof.
  revert s; induction fuel as [|f IH]; intros s; simpl; [reflexivity|].
  destruct (Index s sep) as [m|] eqn:Hi; [|reflexivity].
  rewrite Join_cons by apply genSplit_nonempty.
  rewrite IH. symmetry. now apply Index_Some.
Qed.

(** Joining what [Split] cut gives the string back. *)
Lemma Join_Split (s sep : string) : Join (Split s sep) sep = s.
Proof. apply Join_genSplit. Qed.

Lemma Split_nonempty (s sep : string) : (1 <= List.length (Split s sep))%nat.
Proof.
  unfold Split. pose proof (genSplit_nonempty (String.length s) s sep).
  destruct (genSplit _ s sep); simpl; [congruence | lia].
Qed.

Lemma genSplit_S (fuel : nat) (s sep : string) :
  genSplit (S fuel) s sep =
  match Index s sep with
  | None => [s]
  | Some m => slice_to m s :: genSplit fuel (slice_from (m + String.length sep) s) sep
  end.
Proof. reflexivity. Qed.

Lemma length_pos (sep : string) :
  sep <> EmptyString -> (0 < String.length sep)%nat.
Proof. destruct sep; [congruence | simpl; lia]. Qed.

(** The fuel of [genSplit] never runs out before the separators do. *)
Lemma genSplit_fuel (sep : string) (f1 f2 : nat) (s : string) :
  sep <> EmptyString ->
  (String.length s <= f1)%nat -> (String.length s <= f2)%nat ->
  genSplit f1 s sep = genSplit f2 s sep.
Proof.
  intros Hsep. revert f2 s; induction f1 as [|f1 IH]; intros f2 s H1 H2.
  - destruct s; [|simpl in H1; lia].
    destruct f2; [reflexivity|]. now rewrite genSplit_S, Index_empty.
  - destruct f2 as [|f2].
    + destruct s; [|simpl in H2; lia]. now rewrite genSplit_S, Index_empty.
    + rewrite !genSplit_S. destruct (Index s sep) as [m|] eqn:Hi; [|reflexivity].
      apply Index_Some in Hi as [_ Hlen].
      pose proof (length_pos sep Hsep).
      f_equal. apply IH; rewrite slice_from_length; lia.
Qed.

(** [Split] as the loop of the Go function reads, without the fuel. *)
Lemma Split_unfold (s sep : string) :
  sep <> EmptyString ->
  Split s sep =
  match Index s sep with
  | None => [s]
  | Some m => slice_to m s :: Split (slice_from (m + String.length sep) s) sep
  end.
Proof.
  intros Hsep. unfold Split.
  destruct (String.length s) as [|n] eqn:Hn.
  - destruct s; [|discriminate]. now rewrite Index_empty.
  - rewrite genSplit_S. destruct (Index s sep) as [m|] eqn:Hi; [|reflexivity].
    apply Index_Some in Hi as [_ Hlen].
    pose proof (length_pos sep Hsep).
    f_equal. apply genSplit_fuel; [exact Hsep | |]; rewrite ?slice_from_length; lia.
Qed.

(** ** One-byte separators *)

Lemma HasPrefix_byte (d c : ascii) (r : string) :
  HasPrefix (String d r) (String c EmptyString) = Ascii.eqb d c.
Proof.
  unfold HasPrefix. cbn [String.length slice_to Nat.leb String.eqb].
  destruct (Ascii.eqb d c); reflexivity.
Qed.

Lemma Index_byte_cons (d c : ascii) (r : string) :
  Index (String d r) (String c EmptyString) =
  if Ascii.eqb d c then Some O else option_map S (Index r (String c EmptyString)).
Proof. rewrite Index_unfold, HasPrefix_byte. reflexivity. Qed.

Lemma splitByte_nonempty (c : ascii) (s : string) : splitByte c s <> [].
Proof.
  destruct s as [|d r]; cbn [splitByte]; [discriminate|].
  destruct (Ascii.eqb d c); [discriminate|].
  destruct (splitByte c r); discriminate.
Qed.

(** [Split] with a one-byte separator is the byte-by-byte reading. *)
Lemma Split_byte (c : ascii) (s : string) :
  Split s (String c EmptyString) = splitByte c s.
Proof.
  assert (Hsep : String c EmptyString <> EmptyString) by discriminate.
  induction s as [|d r IH].
  - reflexivity.
  - rewrite Split_unfold by exact Hsep. rewrite Index_byte_cons. cbn [splitByte].
    destruct (Ascii.eqb d c).
    + cbn [slice_to slice_from Nat.add String.length]. now rewrite IH.
    + rewrite <- IH. rewrite (Split_unfold r) by exact Hsep.
      destruct (Index r (String c EmptyString)) as [m|]; reflexivity.
Qed.

Lemma append_cons (d : ascii) (x y : string) :
  (String d x ++ y)%string = String d (x ++ y)%string.
Proof. reflexivity. Qed.

Lemma append_nil_l (y : string) : (EmptyString ++ y)%string = y.
Proof. reflexivity. Qed.

Lemma append_assoc (x y z : string) :
  ((x ++ y) ++ z)%string = (x ++ (y ++ z))%string.
Proof.
  induction x as [|d x IH]; [reflexivity|].
  rewrite !append_cons. now rewrite IH.
Qed.

Lemma append_length (x y : string) :
  String.length (x ++ y)%string = (String.length x + String.length y)%nat.
Proof.
  induction x as [|d x IH]; [reflexivity|].
  rewrite append_cons. cbn [String.length]. now rewrite IH.
Qed.

Lemma slice_from_app (x y : string) :
  slice_from (String.length x) (x ++ y)%string = y.
Proof. induction x as [|d x IH]; [destruct y; reflexivity | exact IH]. Qed.

Lemma slice_to_app (x y : string) :
  slice_to (String.length x) (x ++ y)%string = x.
Proof.
  induction x as [|d x IH]; [destruct y; reflexivity|].
  rewrite append_cons. cbn [String.length slice_to]. now rewrite IH.
Qed.

Lemma HasPrefix_app (pre x : string) : HasPrefix (pre ++ x)%string pre = true.
Proof.
  unfold HasPrefix. rewrite slice_to_app, String.eqb_refl, append_length.
  rewrite andb_true_r. apply Nat.leb_le. lia.
Qed.

Lemma HasSuffix_app (x suf : string) : HasSuffix (x ++ suf)%string suf = true.
Proof.
  unfold HasSuffix. rewrite append_length.
  replace (String.length x + String.length suf - String.length suf)%nat
    with (String.length x) by lia.
  rewrite slice_from_app, String.eqb_refl, andb_true_r. apply Nat.leb_le. lia.
Qed.

Lemma TrimPrefix_app (pre x : string) : TrimPrefix (pre ++ x)%string pre = x.
Proof. unfold TrimPrefix. rewrite HasPrefix_app. apply slice_from_app. Qed.

Lemma TrimSuffix_app (x suf : string) : TrimSuffix (x ++ suf)%string suf = x.
Proof.
  unfold TrimSuffix. rewrite HasSuffix_app, append_length.
  replace (String.length x + String.length suf - String.length suf)%nat
    with (String.length x) by lia.
  apply slice_to_app.
Qed.

(** Cutting [x], a separator byte and [y] gives the segments of [x] and
    then those of [y]. *)
Lemma splitByte_app (c : ascii) (x y : string) :
  splitByte c (x ++ String c y)%string = (splitByte c x ++ splitByte c y)%list.
Proof.
  induction x as [|d x IH].
  - rewrite append_nil_l. cbn [splitByte]. now rewrite Ascii.eqb_refl.
  - rewrite append_cons. cbn [splitByte]. rewrite IH.
    destruct (Ascii.eqb d c); [reflexivity|].
    pose proof (splitByte_nonempty c x).
    destruct (splitByte c x); [congruence | reflexivity].
Qed.

Lemma splitByte_no_byte (c : ascii) (y : string) :
  Index y (String c EmptyString) = None -> splitByte c y = [y].
Proof.
  intros H. rewrite <- Split_byte, Split_unfold by discriminate. now rewrite H.
Qed.

(** No segment holds the separator byte. *)
Lemma splitByte_segments (c : ascii) (s e : string) :
  In e (splitByte c s) -> Index e (String c EmptyString) = None.
Proof.
  revert e; induction s as [|d r IH]; intros e; cbn [splitByte].
  - intros [<-|[]]. reflexivity.
  - destruct (Ascii.eqb d c) eqn:Hd.
    + intros [<-|H]; [reflexivity | now apply IH].
    + pose proof (splitByte_nonempty c r).
      destruct (splitByte c r) as [|h t]; [congruence|].
      intros [<-|H'].
      * rewrite Index_byte_cons, Hd, (IH h) by (left; reflexivity). reflexivity.
      * apply IH. right. exact H'.
Qed.

(** A first byte that is no separator starts the first segment. *)
Lemma splitByte_first (c b : ascii) (y : string) :
  Ascii.eqb b c = false ->
  exists h t, splitByte c (String b y) = String b h :: t.
Proof.
  intros Hb. cbn [splitByte]. rewrite Hb.
  pose proof (splitByte_nonempty c y).
  destruct (splitByte c y) as [|h t]; [congruence|]. eauto.
Qed.

(** A last byte that is no separator ends the last segment. *)
Lemma splitByte_last (c d : ascii) (x : string) :
  Ascii.eqb d c = false ->
  exists init l,
    splitByte c (x ++ String d EmptyString)%string
    = (init ++ [(l ++ String d EmptyString)%string])%list.
Proof.
  intros Hd. induction x as [|e x (init & l & IH)].
  - exists [], EmptyString. rewrite append_nil_l. cbn [splitByte]. now rewrite Hd.
  - rewrite append_cons. cbn [splitByte]. rewrite IH.
    destruct (Ascii.eqb e c).
    + exists (EmptyString :: init), l. reflexivity.
    + destruct init as [|h t].
      * exists [], (String e l). reflexivity.
      * exists (String e h :: t), l. reflexivity.
Qed.

Lemma Join_snoc (es : list string) (x sep : string) :
  es <> [] -> Join (es ++ [x])%list sep = (Join es sep ++ sep ++ x)%string.
Proof.
  induction es as [|e es IH]; [congruence|]. intros _.
  destruct es as [|e' es].
  - reflexivity.
  - change (Join ((e :: e' :: es) ++ [x])%list sep)
      with (e ++ sep ++ Join ((e' :: es) ++ [x])%list sep)%string.
    rewrite IH by discriminate.
    change (Join (e :: e' :: es) sep) with (e ++ sep ++ Join (e' :: es) sep)%string.
    now rewrite !append_assoc.
Qed.

End GoStringsFacts.

(* ===================================================================== *)
(** * Facts about [ParseUint] and the decimal rendering                  *)
(* ===================================================================== *)

Module GoStrconvFacts.
Import GoStrconv.

Lemma maxUint64_eq : maxUint64 = 18446744073709551615.
Proof. reflexivity. Qed.

Lemma isDigit_bounds (ch : ascii) :
  isDigit ch = true -> 0 <= byteZ ch - 48 <= 9.
Proof.
  unfold isDigit. intros H. apply andb_true_iff in H as [H1 H2].
  apply Z.leb_le in H1, H2. lia.
Qed.

(** Put the bounds of a digit byte among the hypotheses. *)
Ltac digit_bounds H :=
  let Hb := fresh "Hb" in pose proof (isDigit_bounds _ H) as Hb.

Lemma wrap64_small (n : Z) : 0 <= n <= maxUint64 -> wrap64 n = n.
Proof. rewrite maxUint64_eq. intros H. unfold wrap64. apply Z.mod_small. lia. Qed.

Lemma parseLoop_cons (ch : ascii) (r : string) (n : Z) :
  parseLoop (String ch r) n =
  let c := byteZ ch in
  let digit :=
    if (48 <=? c) && (c <=? 57) then Some (c - 48)
    else if (97 <=? lower c) && (lower c <=? 122) then Some (lower c - 97 + 10)
    else None in
  match digit with
  | None => (0, Some ErrSyntax)
  | Some d =>
      if 10 <=? d then (0, Some ErrSyntax)
      else if maxUint64 / 10 + 1 <=? n then (maxUint64, Some ErrRange)
      else
        let n' := wrap64 (n * 10) in
        let n1 := wrap64 (n' + d) in
        if (n1 <? n') || (maxUint64 <? n1) then (maxUint64, Some ErrRange)
        else parseLoop r n1
  end.
Proof. reflexivity. Qed.

(** A byte that is no decimal digit is a syntax error. *)
Lemma parseLoop_nondigit (ch : ascii) (r : string) (n : Z) :
  isDigit ch = false -> parseLoop (String ch r) n = (0, Some ErrSyntax).
Proof.
  unfold isDigit. intros Hd. rewrite parseLoop_cons. cbv zeta. rewrite Hd.
  destruct ((97 <=? lower (byteZ ch)) && (lower (byteZ ch) <=? 122)) eqn:Hl;
    [|reflexivity].
  apply andb_true_iff in Hl as [Hl _]. apply Z.leb_le in Hl.
  destruct (Z.leb_spec 10 (lower (byteZ ch) - 97 + 10)); [reflexivity | lia].
Qed.

(** A digit that keeps the value within [uint64] is accumulated. *)
Lemma parseLoop_digit (ch : ascii) (r : string) (n : Z) :
  isDigit ch = true -> 0 <= n ->
  n * 10 + (byteZ ch - 48) <= maxUint64 ->
  parseLoop (String ch r) n = parseLoop r (n * 10 + (byteZ ch - 48)).
Proof.
  intros Hd Hn Hmax. digit_bounds Hd. rewrite parseLoop_cons. cbv zeta.
  unfold isDigit in Hd. rewrite Hd.
  rewrite maxUint64_eq in *.
  destruct (Z.leb_spec 10 (byteZ ch - 48)); [lia|].
  change (18446744073709551615 / 10 + 1) with 1844674407370955162.
  destruct (Z.leb_spec 1844674407370955162 n); [lia|].
  rewrite (wrap64_small (n * 10)) by (rewrite maxUint64_eq; lia).
  rewrite (wrap64_small (n * 10 + _)) by (rewrite maxUint64_eq; lia).
  destruct (Z.ltb_spec (n * 10 + (byteZ ch - 48)) (n * 10)); [lia|].
  destruct (Z.ltb_spec 18446744073709551615 (n * 10 + (byteZ ch - 48))); [lia|].
  reflexivity.
Qed.

(** A digit that takes the value past [uint64] is a range error: the
    value never wraps. *)
Lemma parseLoop_overflow (ch : ascii) (r : string) (n : Z) :
  isDigit ch = true -> 0 <= n <= maxUint64 ->
  maxUint64 < n * 10 + (byteZ ch - 48) ->
  parseLoop (String ch r) n = (maxUint64, Some ErrRange).
Proof.
  intros Hd Hn Hmax. digit_bounds Hd. rewrite parseLoop_cons. cbv zeta.
  unfold isDigit in Hd. rewrite Hd.
  destruct (Z.leb_spec 10 (byteZ ch - 48)); [lia|].
  destruct (Z.leb_spec (maxUint64 / 10 + 1) n) as [Hc|Hc]; [reflexivity|].
  rewrite maxUint64_eq in *.
  change (18446744073709551615 / 10 + 1) with 1844674407370955162 in Hc.
  rewrite (wrap64_small (n * 10)) by (rewrite maxUint64_eq; lia).
  assert (Hw : wrap64 (n * 10 + (byteZ ch - 48))
               = n * 10 + (byteZ ch - 48) - 18446744073709551616).
  { unfold wrap64. change (2 ^ 64) with 18446744073709551616.
    symmetry. apply Z.mod_unique with (q := 1); lia. }
  rewrite Hw.
  destruct (Z.ltb_spec (n * 10 + (byteZ ch - 48) - 18446744073709551616) (n * 10));
    [reflexivity | lia].
Qed.

Lemma decimalFrom_ge (cs : string) (n v : Z) :
  0 <= n -> decimalFrom cs n = Some v -> n <= v.
Proof.
  revert n; induction cs as [|ch r IH]; intros n Hn; simpl.
  - intros [= <-]. lia.
  - destruct (isDigit ch) eqn:Hd; [|discriminate]. digit_bounds Hd.
    intros H. apply IH in H; lia.
Qed.

(** The loop accepts exactly the digit strings whose value fits. *)
Lemma parseLoop_ok (cs : string) (n v : Z) :
  0 <= n <= maxUint64 ->
  parseLoop cs n = (v, None) <-> decimalFrom cs n = Some v /\ v <= maxUint64.
Proof.
  revert n; induction cs as [|ch r IH]; intros n Hn.
  - simpl. split.
    + intros [= <-]. split; [reflexivity | lia].
    + intros [[= <-] _]. reflexivity.
  - cbn [decimalFrom]. destruct (isDigit ch) eqn:Hd.
    + digit_bounds Hd.
      destruct (Z_le_gt_dec (n * 10 + (byteZ ch - 48)) maxUint64) as [Hle|Hgt].
      * rewrite parseLoop_digit by (trivial; lia). apply IH. lia.
      * rewrite parseLoop_overflow by (trivial; lia). split; [discriminate|].
        intros [H Hv]. apply decimalFrom_ge in H; lia.
    + rewrite parseLoop_nondigit by exact Hd. split; [discriminate|].
      intros [H _]; discriminate.
Qed.

(** [ParseUint] succeeds exactly on the valid non-negative base-10
    integers representable in 64 bits, with their value. *)
Lemma ParseUint_ok (s : string) (v : Z) :
  ParseUint s = (v, None) <-> decimalValue s = Some v /\ v <= maxUint64.
Proof.
  destruct s as [|ch r].
  - simpl. split; [discriminate | intros [H _]; discriminate].
  - unfold ParseUint, decimalValue. apply parseLoop_ok. rewrite maxUint64_eq. lia.
Qed.

Lemma parseLoop_err (cs : string) (n : Z) :
  exists v e, parseLoop cs n = (v, e).
Proof. destruct (parseLoop cs n) as [v e]. eauto. Qed.

(** Otherwise it fails: there is an error, and the value is not used. *)
Lemma ParseUint_fails (s : string) :
  (forall v, ~ (decimalValue s = Some v /\ v <= maxUint64)) ->
  exists v e, ParseUint s = (v, Some e).
Proof.
  intros H. destruct (ParseUint s) as [v [e|]] eqn:Hp; [eauto|].
  apply ParseUint_ok in Hp. now apply H in Hp.
Qed.

Lemma byteZ_digitChar (d : Z) : 0 <= d <= 9 -> byteZ (digitChar d) = 48 + d.
Proof.
  intros Hd. unfold byteZ, digitChar.
  rewrite nat_ascii_embedding by lia. lia.
Qed.

Lemma formatBits_S (fuel : nat) (n : Z) (acc : string) :
  formatBits (S fuel) n acc =
  let acc' := String (digitChar (n mod 10)) acc in
  if n / 10 =? 0 then acc' else formatBits fuel (n / 10) acc'.
Proof. reflexivity. Qed.

(** Parsing the digits written in front of [acc] brings the accumulator
    from [0] to [n]. *)
Lemma parseLoop_formatBits (fuel : nat) (n : Z) (acc : string) :
  0 <= n < 10 ^ Z.of_nat fuel -> n <= maxUint64 ->
  parseLoop (formatBits fuel n acc) 0 = parseLoop acc n.
Proof.
  revert n acc; induction fuel as [|f IH]; intros n acc Hn Hmax.
  - change (10 ^ Z.of_nat 0) with 1 in Hn. assert (n = 0) as -> by lia. reflexivity.
  - rewrite formatBits_S. cbv zeta.
    assert (Hd : 0 <= n mod 10 <= 9) by (pose proof (Z.mod_pos_bound n 10); lia).
    assert (Hdig : isDigit (digitChar (n mod 10)) = true).
    { unfold isDigit. rewrite byteZ_digitChar by exact Hd.
      apply andb_true_iff; split; apply Z.leb_le; lia. }
    pose proof (Z.div_mod n 10 ltac:(lia)) as Hdm.
    assert (Hq : 0 <= n / 10) by (apply Z.div_pos; lia).
    assert (Hstep : parseLoop (String (digitChar (n mod 10)) acc) (n / 10)
                    = parseLoop acc n).
    { rewrite parseLoop_digit by (rewrite ?byteZ_digitChar by exact Hd; trivial; lia).
      rewrite byteZ_digitChar by exact Hd. f_equal. lia. }
    destruct (Z.eqb_spec (n / 10) 0) as [Hz|Hnz].
    + rewrite <- Hstep, Hz. reflexivity.
    + rewrite IH; [exact Hstep | | lia].
      rewrite Nat2Z.inj_succ, Z.pow_succ_r in Hn by lia.
      split; [exact Hq | apply Z.div_lt_upper_bound; lia].
Qed.

Lemma formatBits_nonempty (fuel : nat) (n : Z) (acc : string) :
  formatBits (S fuel) n acc <> EmptyString.
Proof.
  revert n acc; induction fuel as [|f IH]; intros n acc; rewrite formatBits_S; cbv zeta.
  - destruct (n / 10 =? 0); discriminate.
  - destruct (n / 10 =? 0); [discriminate | apply IH].
Qed.

(** Parsing the decimal rendering of a [uint64] gives it back. *)
Lemma ParseUint_FormatUint (n : Z) :
  0 <= n <= maxUint64 -> ParseUint (FormatUint n) = (n, None).
Proof.
  intros Hn. unfold ParseUint, FormatUint.
  pose proof (formatBits_nonempty 19 n EmptyString) as Hne.
  destruct (formatBits 20 n EmptyString) eqn:Hf; [congruence|].
  rewrite <- Hf. rewrite parseLoop_formatBits; [reflexivity | | lia].
  rewrite maxUint64_eq in Hn. change (10 ^ Z.of_nat 20) with 100000000000000000000. lia.
Qed.

End GoStrconvFacts.

(* ===================================================================== *)
(** * Properties of package [network]                                    *)
(* ===================================================================== *)

Module NetworkSpec.
Import GoStrings GoStrconv GoStringsFacts GoStrconvFacts Network.

(** ** The tier table *)

(** Read the entries of [ranges] down to their numbers. *)
Ltac table_bounds :=
  cbn [ranges pr_min pr_max tr_min tr_max portType_int];
  unfold MinSystem, MaxSystem, MinRegistered, MaxRegistered, MinDynamic, MaxDynamic.

Lemma IsValidForTypeRange_bounds (p : port) (ptr : option portTypeRange) :
  IsValidForTypeRange p ptr = true -> 0 <= p <= 65535.
Proof.
  destruct ptr as [[lo hi]|]; [|discriminate].
  unfold IsValidForTypeRange. rewrite andb_true_iff, !Z.leb_le.
  destruct lo, hi; table_bounds; lia.
Qed.

Lemma IsValid_iff (p : port) : IsValid p = true <-> 0 <= p <= 65535.
Proof.
  unfold IsValid, IsValidForTypeRange, All. table_bounds.
  rewrite andb_true_iff, !Z.leb_le. lia.
Qed.

(** C2. The two boundary lookups of [IsValidForTypeRange] decide
    membership in the union of the intervals System 0-1023, Registered
    1024-49151 and Dynamic 49152-65535 of all tiers between the minimal
    and the maximal tier of the range, for every port value and every
    range; a nil range admits nothing. *)
Theorem IsValidForTypeRange_is_tier_union (p : port) (ptr : option portTypeRange) :
  IsValidForTypeRange p ptr =
  match ptr with
  | None => false
  | Some r => inTierUnion p r
  end.
Proof.
  destruct ptr as [[lo hi]|]; [|reflexivity].
  apply eq_iff_eq_true.
  unfold inTierUnion, tiers, tierBetween, inTier, IsValidForTypeRange.
  cbn [existsb tierInterval fst snd].
  destruct lo, hi; table_bounds;
    rewrite ?orb_true_iff, ?andb_true_iff, ?orb_true_iff, ?andb_true_iff, ?Z.leb_le;
    lia.
Qed.

(** C4. Every port of [0, 1023] is valid for [System] and for no other
    tier, every port of [1024, 49151] for [Registered] only and every
    port of [49152, 65535] for [Dynamic] only; so each boundary value
    belongs to the tier that owns it and not to its neighbour. *)
Theorem IsValidForType_tier_table (p : port) :
  (0 <= p <= 1023 ->
     IsValidForType p System = true
     /\ IsValidForType p Registered = false
     /\ IsValidForType p Dynamic = false)
  /\ (1024 <= p <= 49151 ->
     IsValidForType p System = false
     /\ IsValidForType p Registered = true
     /\ IsValidForType p Dynamic = false)
  /\ (49152 <= p <= 65535 ->
     IsValidForType p System = false
     /\ IsValidForType p Registered = false
     /\ IsValidForType p Dynamic = true).
Proof.
  unfold IsValidForType, IsValidForTypeRange, rangeOfSame. table_bounds.
  repeat split;
    rewrite ?andb_true_iff, ?andb_false_iff, ?Z.leb_le, ?Z.leb_gt; lia.
Qed.

(** The five boundary values, each in its own tier only. *)
Lemma IsValidForType_tier_table_boundaries :
  (IsValidForType 1023 System = true /\ IsValidForType 1023 Registered = false
   /\ IsValidForType 1023 Dynamic = false)
  /\ (IsValidForType 1024 System = false /\ IsValidForType 1024 Registered = true
   /\ IsValidForType 1024 Dynamic = false)
  /\ (IsValidForType 49151 System = false /\ IsValidForType 49151 Registered = true
   /\ IsValidForType 49151 Dynamic = false)
  /\ (IsValidForType 49152 System = false /\ IsValidForType 49152 Registered = false
   /\ IsValidForType 49152 Dynamic = true)
  /\ (IsValidForType 65535 System = false /\ IsValidForType 65535 Registered = false
   /\ IsValidForType 65535 Dynamic = true).
Proof.
  repeat apply conj.
  - apply (proj1 (IsValidForType_tier_table 1023)); lia.
  - apply (proj1 (IsValidForType_tier_table 1023)); lia.
  - apply (proj1 (IsValidForType_tier_table 1023)); lia.
  - apply (proj1 (proj2 (IsValidForType_tier_table 1024))); lia.
  - apply (proj1 (proj2 (IsValidForType_tier_table 1024))); lia.
  - apply (proj1 (proj2 (IsValidForType_tier_table 1024))); lia.
  - apply (proj1 (proj2 (IsValidForType_tier_table 49151))); lia.
  - apply (proj1 (proj2 (IsValidForType_tier_table 49151))); lia.
  - apply (proj1 (proj2 (IsValidForType_tier_table 49151))); lia.
  - apply (proj2 (proj2 (IsValidForType_tier_table 49152))); lia.
  - apply (proj2 (proj2 (IsValidForType_tier_table 49152))); lia.
  - apply (proj2 (proj2 (IsValidForType_tier_table 49152))); lia.
  - apply (proj2 (proj2 (IsValidForType_tier_table 65535))); lia.
  - apply (proj2 (proj2 (IsValidForType_tier_table 65535))); lia.
  - apply (proj2 (proj2 (IsValidForType_tier_table 65535))); lia.
Defined.

(** ** Port construction *)

Lemma NewPortForTypeRange_uint64 (v : Z) (ptr : option portTypeRange) :
  NewPortForTypeRange (OfUint64 v) ptr =
  if IsValidForTypeRange v ptr then (Some v, None)
  else (None, Some (Errorf ("invalid port " ++ FormatUint v))).
Proof. reflexivity. Qed.

Lemma NewPortForTypeRange_string_valid (s : string) (v : Z) (ptr : option portTypeRange) :
  decimalValue s = Some v -> v <= maxUint64 ->
  NewPortForTypeRange (OfString s) ptr =
  if IsValidForTypeRange v ptr then (Some v, None)
  else (None, Some (Errorf ("invalid port " ++ FormatUint v))).
Proof.
  intros Hd Hv. unfold NewPortForTypeRange.
  rewrite (proj2 (ParseUint_ok s v) (conj Hd Hv)). reflexivity.
Qed.

Lemma NewPortForTypeRange_string_invalid (s : string) (ptr : option portTypeRange) :
  (forall v, ~ (decimalValue s = Some v /\ v <= maxUint64)) ->
  exists e, NewPortForTypeRange (OfString s) ptr = (None, Some (NumError "ParseUint" s e)).
Proof.
  intros H. destruct (ParseUint_fails s H) as (v & e & Hp).
  exists e. unfold NewPortForTypeRange. rewrite Hp. reflexivity.
Qed.

(** A failed construction returns the nil [Port]; a successful one a port
    that is valid for the range. *)
Lemma NewPortForTypeRange_result (pi : PortInput) (ptr : option portTypeRange)
      (p : Port) (err : option error) :
  NewPortForTypeRange pi ptr = (p, err) ->
  match err with
  | Some _ => p = None
  | None => exists v, p = Some v /\ IsValidForTypeRange v ptr = true
  end.
Proof.
  unfold NewPortForTypeRange.
  destruct pi as [s|v|s|v].
  - destruct (ParseUint s) as [n [e|]]; cbn.
    + intros [= <- <-]. reflexivity.
    + destruct (IsValidForTypeRange n ptr) eqn:Hv; intros [= <- <-]; eauto.
  - destruct (IsValidForTypeRange v ptr) eqn:Hv; intros [= <- <-]; eauto.
  - destruct (IsValidForTypeRange 0 ptr) eqn:Hv; intros [= <- <-]; eauto.
  - destruct (IsValidForTypeRange 0 ptr) eqn:Hv; intros [= <- <-]; eauto.
Qed.

(** C5. [NewPortForTypeRange] at an argument of a defined type over
    [uint64] or [string], which [PortInput] admits: the type switch
    matches neither case, so the value [65536] of the exported constant
    [Invalid], not valid for any range, and the string [abc], no number,
    both give the port [0] and no error; and the valid port [65535] of
    the constant [MaxDynamic] gives the port [0] as well. *)
Theorem NewPortForTypeRange_defined_type_input :
  IsValidForTypeRange Invalid (Some All) = false
  /\ NewPortForTypeRange (OfDefinedUint64 Invalid) (Some All) = (Some 0, None)
  /\ decimalValue "abc" = None
  /\ NewPortForTypeRange (OfDefinedString "abc") (Some All) = (Some 0, None)
  /\ NewPortForTypeRange (OfDefinedUint64 MaxDynamic) (Some All) = (Some 0, None).
Proof. repeat split; vm_compute; reflexivity. Qed.

(** C7. Round trip: for every valid port [p], constructing a port from
    the decimal rendering of [p.Uint64()] with the range [All] succeeds
    and returns the port [p] itself, whose [Uint64] is [p]. *)
Theorem NewPort_FormatUint_roundtrip (p : port) :
  0 <= p <= 65535 ->
  NewPortForTypeRange (OfString (FormatUint (Uint64 p))) (Some All) = (Some p, None)
  /\ Uint64 p = p
  /\ Port_Uint64 (fst (NewPortForTypeRange (OfString (FormatUint (Uint64 p))) (Some All)))
     = Some p.
Proof.
  intros Hp.
  assert (H : NewPortForTypeRange (OfString (FormatUint (Uint64 p))) (Some All)
              = (Some p, None)).
  { unfold NewPortForTypeRange, Uint64.
    rewrite ParseUint_FormatUint by (rewrite maxUint64_eq; lia).
    cbn [fmap option_fmap option_map].
    rewrite (proj2 (IsValid_iff p) Hp : IsValidForTypeRange p (Some All) = true).
    reflexivity. }
  split; [exact H|]. split; [reflexivity|]. rewrite H. reflexivity.
Qed.

Lemma NewPort_FormatUint_roundtrip_witness :
  0 <= 65535 <= 65535
  /\ NewPortForTypeRange (OfString (FormatUint (Uint64 65535))) (Some All)
     = (Some 65535, None)
  /\ Uint64 65535 = 65535
  /\ Port_Uint64
       (fst (NewPortForTypeRange (OfString (FormatUint (Uint64 65535))) (Some All)))
     = Some 65535.
Proof. split; [lia | apply (NewPort_FormatUint_roundtrip 65535); lia]. Defined.

(** The construction examples of the specification. *)
Example NewPort_65536 :
  NewPort (OfString "65536") = (None, Some (Errorf "invalid port 65536")).
Proof. vm_compute; reflexivity. Qed.

Example NewPort_70000 :
  NewPort (OfUint64 70000) = (None, Some (Errorf "invalid port 70000")).
Proof. vm_compute; reflexivity. Qed.

Example NewPort_abc :
  NewPort (OfString "abc") = (None, Some (NumError "ParseUint" "abc" ErrSyntax)).
Proof. vm_compute; reflexivity. Qed.

Example NewPort_past_uint64 :
  NewPort (OfString "18446744073709551616")
  = (None, Some (NumError "ParseUint" "18446744073709551616" ErrRange)).
Proof. vm_compute; reflexivity. Qed.

Example IsValidForTypeRange_80 :
  IsValidForTypeRange 80 (Some NonSystem) = false
  /\ IsValidForTypeRange 80 (Some All) = true
  /\ IsValidForTypeRange 80 (Some NonDynamic) = true
  /\ IsValid 65536 = false /\ IsValid 65535 = true.
Proof. repeat split. Qed.

(** ** Address parsing *)

(** The splitting examples of the specification. *)
Example parseAddressPort_ipv4_port :
  parseAddressPort "192.0.2.1:8080" = ("192.0.2.1", "8080", true).
Proof. vm_compute; reflexivity. Qed.

Example parseAddressPort_bracketed_port :
  parseAddressPort "[2001:db8::1]:443" = ("2001:db8::1", "443", true).
Proof. vm_compute; reflexivity. Qed.

Example parseAddressPort_bare_ipv6 :
  parseAddressPort "2001:db8::1" = ("2001:db8::1", EmptyString, false).
Proof. vm_compute; reflexivity. Qed.

Example parseAddressPort_bracketed_no_port :
  parseAddressPort "[2001:db8::1]" = ("2001:db8::1", EmptyString, false).
Proof. vm_compute; reflexivity. Qed.

Example ParseAddress_ipv4_port :
  ParseAddress dottedQuad "192.0.2.1:8080" = ("192.0.2.1", Some 8080, None).
Proof. vm_compute; reflexivity. Qed.

Example ParseAddress_bad_address :
  ParseAddress dottedQuad "999.999.999.999"
  = (EmptyString, None, Some (Errorf "invalid IP address '999.999.999.999'")).
Proof. vm_compute; reflexivity. Qed.

(** Both indexings of [parseAddressPort] are in range. *)
Lemma parseAddressPort_in_range (s : string) :
  let l := List.length (Split s Colon) in
  (2 <= l -> 0 < l /\ l - 2 < l /\ l - 2 + 1 < l)%nat.
Proof. cbv zeta. lia. Qed.

Lemma head_at_index (elems : list string) :
  (1 <= List.length elems)%nat -> head elems = Some (at_index elems 0).
Proof. destruct elems; simpl; [lia | reflexivity]. Qed.

Lemma secondToLast_at_index (elems : list string) :
  (2 <= List.length elems)%nat ->
  secondToLast elems = Some (at_index elems (List.length elems - 2)).
Proof.
  intros Hl. unfold secondToLast, at_index.
  rewrite <- (rev_involutive elems) at 2 3.
  rewrite <- length_rev in Hl.
  destruct (rev elems) as [|a [|b t]]; simpl in Hl; try lia.
  f_equal. cbn [rev]. rewrite !length_app, length_rev. cbn [List.length].
  replace (List.length t + 1 + 1 - 2)%nat with (List.length t) by lia.
  rewrite app_nth1 by (rewrite length_app, length_rev; simpl; lia).
  rewrite app_nth2 by (rewrite length_rev; lia).
  rewrite length_rev, Nat.sub_diag. reflexivity.
Qed.

Lemma secondToLast_short (elems : list string) :
  (List.length elems < 2)%nat -> secondToLast elems = None.
Proof.
  intros Hl. unfold secondToLast. rewrite <- length_rev in Hl.
  destruct (rev elems) as [|a [|b t]]; simpl in Hl; try reflexivity; lia.
Qed.

(** C1. [parseAddressPort] recognizes a port segment if and only if the
    input splits on the colon into exactly two segments, or its first
    segment starts with the left bracket and its second-to-last segment
    ends with the right bracket.  In every other case no port is
    recognized and the whole input is the address, from which step 5
    strips one leading and one trailing bracket: an input with neither is
    returned as it is. *)
Theorem parseAddressPort_port_iff (s addr po : string) (hasPort : bool) :
  parseAddressPort s = (addr, po, hasPort) ->
  let elems := Split s Colon in
  (hasPort = true <-> List.length elems = 2%nat \/ bracketPattern elems)
  /\ (hasPort = false ->
      po = EmptyString
      /\ addr = TrimSuffix (TrimPrefix s LeftSquareBracket) RightSquareBracket
      /\ (HasPrefix s LeftSquareBracket = false ->
          HasSuffix s RightSquareBracket = false -> addr = s)).
Proof.
  intros Hp. cbv zeta. unfold parseAddressPort in Hp. cbv zeta in Hp.
  pose proof (Split_nonempty s Colon) as Hne.
  set (elems := Split s Colon) in *.
  assert (Hstrip : HasPrefix s LeftSquareBracket = false ->
                   HasSuffix s RightSquareBracket = false ->
                   TrimSuffix (TrimPrefix s LeftSquareBracket) RightSquareBracket = s).
  { intros H1 H2. unfold TrimPrefix. rewrite H1. unfold TrimSuffix. now rewrite H2. }
  destruct (Nat.ltb_spec (List.length elems) 2) as [Hlt|Hge].
  - (* a single segment *)
    injection Hp as <- <- <-. split.
    + split; [discriminate|]. intros [H2|(f & x & _ & Hx & _)]; [lia|].
      rewrite secondToLast_short in Hx by exact Hlt. discriminate.
    + intros _. auto.
  - (* at least one colon *)
    set (n := (List.length elems - 2)%nat) in *.
    destruct ((n =? 0)%nat
              || (HasPrefix (at_index elems 0) LeftSquareBracket
                  && HasSuffix (at_index elems n) RightSquareBracket)) eqn:Hc;
      injection Hp as <- <- <-.
    + split; [|discriminate]. split; [|reflexivity]. intros _.
      apply orb_true_iff in Hc as [Hc|Hc].
      * apply Nat.eqb_eq in Hc. left. unfold n in Hc. lia.
      * apply andb_true_iff in Hc as [H1 H2]. right.
        exists (at_index elems 0), (at_index elems n). repeat split; trivial.
        -- apply head_at_index. lia.
        -- apply secondToLast_at_index. exact Hge.
    + apply orb_false_iff in Hc as [Hn Hb]. apply Nat.eqb_neq in Hn.
      split.
      * split; [discriminate|]. intros [H2|(f & x & Hf & Hx & H1 & H2)].
        -- unfold n in Hn. lia.
        -- rewrite head_at_index in Hf by lia.
           rewrite secondToLast_at_index in Hx by exact Hge.
           injection Hf as <-. injection Hx as <-. fold n in H2.
           rewrite H1, H2 in Hb. discriminate.
      * intros _.
        replace (n + 1 + 1)%nat with (List.length elems) by (unfold n; lia).
        rewrite firstn_all. unfold elems. rewrite Join_Split. auto.
Qed.

Lemma parseAddressPort_port_iff_witness :
  parseAddressPort "2001:db8::1:80" = ("2001:db8::1:80", EmptyString, false)
  /\ ((false = true <->
       List.length (Split "2001:db8::1:80" Colon) = 2%nat
       \/ bracketPattern (Split "2001:db8::1:80" Colon))
      /\ (false = false ->
          EmptyString = EmptyString
          /\ "2001:db8::1:80"
             = TrimSuffix (TrimPrefix "2001:db8::1:80" LeftSquareBracket) RightSquareBracket
          /\ (HasPrefix "2001:db8::1:80" LeftSquareBracket = false ->
              HasSuffix "2001:db8::1:80" RightSquareBracket = false ->
              "2001:db8::1:80" = "2001:db8::1:80"))).
Proof.
  split; [vm_compute; reflexivity|].
  apply (parseAddressPort_port_iff "2001:db8::1:80" "2001:db8::1:80" EmptyString false).
  vm_compute; reflexivity.
Defined.

Section AddressSpec.

Variable ParseIP : string -> bool.

(** C6. Whenever [ParseAddressForPortTypeRange] returns an error, be it
    for the address or for the port, it returns nothing else: the address
    is the empty string and the [Port] is nil. *)
Theorem ParseAddress_error_no_partial_result
        (s : string) (ptr : option portTypeRange)
        (address : string) (p : Port) (e : error) :
  ParseAddressForPortTypeRange ParseIP s ptr = (address, p, Some e) ->
  address = EmptyString /\ p = None.
Proof.
  unfold ParseAddressForPortTypeRange.
  destruct (parseAddressPort s) as [[addr po] hasPort].
  destruct (ParseIP addr); cbn [negb].
  - destruct hasPort.
    + destruct (NewPortForTypeRange (OfString po) ptr) as [p' err] eqn:Hn.
      apply NewPortForTypeRange_result in Hn.
      intros [= <- <- ->]. split; [reflexivity | exact Hn].
    + discriminate.
  - intros [= <- <- _]. split; reflexivity.
Qed.

(** C9, as the code has it.  When [ParseAddressForPortTypeRange] succeeds
    on an input without a port segment, the [Port] it returns is nil:
    there is no port value, and [IsSet] on it is a call on the nil
    interface.  When it succeeds on an input with a port segment the
    [Port] is not nil and [IsSet] is true. *)
Theorem ParseAddress_no_port_is_nil
        (s : string) (ptr : option portTypeRange) (address : string) (p : Port) :
  ParseAddressForPortTypeRange ParseIP s ptr = (address, p, None) ->
  (snd (parseAddressPort s) = false -> p = None /\ Port_IsSet p = None)
  /\ (snd (parseAddressPort s) = true ->
      exists v, p = Some v /\ Port_IsSet p = Some true).
Proof.
  unfold ParseAddressForPortTypeRange.
  destruct (parseAddressPort s) as [[addr po] hasPort]. cbn [snd].
  destruct (ParseIP addr); cbn [negb]; [|discriminate].
  destruct hasPort.
  - destruct (NewPortForTypeRange (OfString po) ptr) as [p' err] eqn:Hn.
    apply NewPortForTypeRange_result in Hn.
    intros [= _ <- ->]. split; [discriminate|]. intros _.
    destruct Hn as (v & -> & Hv). exists v. split; [reflexivity|].
    apply IsValidForTypeRange_bounds in Hv.
    cbn. f_equal. unfold IsSet, Invalid. apply Z.ltb_lt. lia.
  - intros [= _ <-]. split; [split; reflexivity | discriminate].
Qed.

End AddressSpec.

Lemma ParseAddress_error_no_partial_result_witness :
  ParseAddressForPortTypeRange dottedQuad "10.0.0.1:99999" (Some All)
  = (EmptyString, None, Some (Errorf "invalid port 99999"))
  /\ (EmptyString = EmptyString /\ (None : Port) = None).
Proof.
  split; [vm_compute; reflexivity|].
  apply (ParseAddress_error_no_partial_result dottedQuad "10.0.0.1:99999" (Some All)
           EmptyString None (Errorf "invalid port 99999")).
  vm_compute; reflexivity.
Defined.

Lemma ParseAddress_no_port_is_nil_witness :
  ParseAddressForPortTypeRange dottedQuad "10.0.0.1" (Some All)
  = ("10.0.0.1", None, None)
  /\ ((snd (parseAddressPort "10.0.0.1") = false ->
       (None : Port) = None /\ Port_IsSet None = None)
      /\ (snd (parseAddressPort "10.0.0.1") = true ->
          exists v, (None : Port) = Some v /\ Port_IsSet None = Some true)).
Proof.
  split; [vm_compute; reflexivity|].
  apply (ParseAddress_no_port_is_nil dottedQuad "10.0.0.1" (Some All) "10.0.0.1" None).
  vm_compute; reflexivity.
Defined.

(** C9, as the specification words it, fails: [10.0.0.1] has no port
    segment and parses, the returned [Port] is nil, and [IsSet] on it is
    not [false]: the call panics. *)
Lemma ParseAddress_no_port_IsSet_counterexample :
  exists (address : string) (p : Port),
    ParseAddress dottedQuad "10.0.0.1" = (address, p, None)
    /\ snd (parseAddressPort "10.0.0.1") = false
    /\ p = None
    /\ Port_IsSet p <> Some false.
Proof.
  exists "10.0.0.1", None. repeat split; try (vm_compute; reflexivity).
  discriminate.
Qed.

End NetworkSpec.

(* ===================================================================== *)
(** * Properties of package [config]                                     *)
(* ===================================================================== *)

Module ConfigSpec.
Import GoStrings Config.

(** ** Lower case *)




Section ValidateSpec.

Variable mapUnicodeToLower : string -> string.



(** What [validate] checks: the ordering of [WaitMin] and [WaitMax] is
    not part of it. *)
Lemma validate_ok_iff (rc : RetryConfig) :
  snd (validate mapUnicodeToLower rc) = None <->
  0 < WaitMin rc /\ 0 < MaxAttempts rc
  /\ is_Some (lookupPolicy mapUnicodeToLower (Policy rc)).
Proof.
  unfold validate, validDurations, validPositive.
  destruct (Z.ltb_spec 0 (WaitMin rc)) as [H1|H1]; cbn [negb].
  - rewrite Z.leb_refl. cbn [negb].
    destruct (Z.leb_spec (MaxAttempts rc) 0) as [H2|H2].
    + cbn [snd]. split; [discriminate | lia].
    + destruct (lookupPolicy mapUnicodeToLower (Policy rc)) as [b|]; cbn [snd].
      * split; [intros _; repeat split; eauto; lia | reflexivity].
      * split; [discriminate | intros (_ & _ & [b Hb]); discriminate].
  - cbn [snd]. split; [discriminate | lia].
Qed.

(** C3. [Validate] at a configuration whose [WaitMin] (2s) is above its
    [WaitMax] (1s): both duration checks are made on [WaitMin], so the
    call returns no error and marks the configuration valid. *)
Theorem Validate_accepts_WaitMin_above_WaitMax :
  let rc := mkRetryConfig 2000000000 1000000000 3 DefaultPolicy None false in
  WaitMax rc < WaitMin rc
  /\ Validate mapUnicodeToLower (Some rc)
     = (Some (mkRetryConfig 2000000000 1000000000 3 DefaultPolicy
                (Some DefaultBackoff) true), None).
Proof. cbv zeta. split; [reflexivity | vm_compute; reflexivity]. Qed.

(** C10. The name [exponential] has the backoff function of [default]
    and of the empty name in the table, the default one of the library;
    so [Validate] ends the same way, with the same function, for a
    configuration that names [exponential] and for one that names
    [default]. *)
Theorem exponential_policy_is_default :
  policies !! ExponentialPolicy = Some DefaultBackoff
  /\ policies !! DefaultPolicy = Some DefaultBackoff
  /\ policies !! Empty = Some DefaultBackoff
  /\ forall rc : RetryConfig,
      let e := validate mapUnicodeToLower (withPolicy rc ExponentialPolicy) in
      let d := validate mapUnicodeToLower (withPolicy rc DefaultPolicy) in
      snd e = snd d
      /\ backoff (fst e) = backoff (fst d)
      /\ isValid (fst e) = isValid (fst d).
Proof.
  repeat split; try reflexivity;
    unfold validate, withPolicy, validDurations, validPositive;
    cbn [WaitMin WaitMax MaxAttempts Policy backoff isValid];
    destruct (0 <? WaitMin rc); cbn [negb]; try reflexivity;
    rewrite Z.leb_refl; cbn [negb];
    destruct (MaxAttempts rc <=? 0); reflexivity.
Qed.

End ValidateSpec.


End ConfigSpec.

(* ===================================================================== *)
(** * Further properties of package [network]: ports                     *)
(* ===================================================================== *)

Module PortProps.
Import GoStrings GoStrconv GoStringsFacts GoStrconvFacts Network NetworkSpec.

(** A digit string whose value is past [uint64] is a range error of the
    loop, whatever follows the digit that overflows. *)
Lemma parseLoop_range (cs : string) (n v : Z) :
  0 <= n <= maxUint64 -> decimalFrom cs n = Some v -> maxUint64 < v ->
  parseLoop cs n = (maxUint64, Some ErrRange).
Proof.
  revert n; induction cs as [|ch r IH]; intros n Hn; cbn [decimalFrom].
  - intros [= <-]. lia.
  - destruct (isDigit ch) eqn:Hd; [|discriminate]. digit_bounds Hd.
    intros Hv Hmax.
    destruct (Z_le_gt_dec (n * 10 + (byteZ ch - 48)) maxUint64) as [Hle|Hgt].
    + rewrite parseLoop_digit by (trivial; lia). apply IH; trivial. lia.
    + apply parseLoop_overflow; trivial. lia.
Qed.

Lemma IsValidForTypeRange_All (p : port) (ptr : option portTypeRange) :
  IsValidForTypeRange p ptr = true -> IsValidForTypeRange p (Some All) = true.
Proof. intros H. apply IsValid_iff. now apply IsValidForTypeRange_bounds in H. Qed.

(** X1. On every [uint64] value [IsSet] and [IsValid] agree: a port is
    set exactly when it is a valid port of some tier. *)
Theorem IsSet_agrees_with_IsValid (p : port) :
  0 <= p <= maxUint64 -> IsSet p = IsValid p.
Proof.
  intros Hp. apply eq_iff_eq_true. rewrite IsValid_iff.
  unfold IsSet, Invalid. rewrite Z.ltb_lt. lia.
Qed.

Lemma IsSet_agrees_with_IsValid_witness :
  0 <= 65536 <= maxUint64 /\ IsSet 65536 = IsValid 65536.
Proof.
  assert (H : 0 <= 65536 <= maxUint64) by (rewrite maxUint64_eq; lia).
  split; [exact H | exact (IsSet_agrees_with_IsValid 65536 H)].
Defined.

(** X2. The three tiers partition the valid ports: a port is valid
    exactly when some tier owns it, and no port is owned by two tiers. *)
Theorem tiers_partition_valid_ports (p : port) :
  (IsValid p = true <-> exists t, IsValidForType p t = true)
  /\ (forall t1 t2,
        IsValidForType p t1 = true -> IsValidForType p t2 = true -> t1 = t2).
Proof.
  split.
  - rewrite IsValid_iff. split.
    + intros Hp.
      destruct (Z_le_gt_dec p 1023); [exists System|
        destruct (Z_le_gt_dec p 49151); [exists Registered | exists Dynamic]];
        unfold IsValidForType, IsValidForTypeRange, rangeOfSame; table_bounds;
        rewrite andb_true_iff, !Z.leb_le; lia.
    + intros [t Ht]. unfold IsValidForType in Ht.
      now apply IsValidForTypeRange_bounds in Ht.
  - intros t1 t2. unfold IsValidForType, IsValidForTypeRange, rangeOfSame.
    rewrite !andb_true_iff, !Z.leb_le.
    destruct t1, t2; table_bounds; intros; try reflexivity; lia.
Qed.

(** X3. The predefined ranges compose as their names say: [All] is the
    union of [NonSystem] and [NonDynamic], their intersection is the tier
    [Registered], and [NonSystem] and [NonDynamic] are [All] without the
    tier [System] and without the tier [Dynamic]. *)
Theorem predefined_ranges_compose (p : port) :
  IsValid p
  = IsValidForTypeRange p (Some NonSystem) || IsValidForTypeRange p (Some NonDynamic)
  /\ IsValidForType p Registered
     = IsValidForTypeRange p (Some NonSystem) && IsValidForTypeRange p (Some NonDynamic)
  /\ IsValidForTypeRange p (Some NonSystem)
     = IsValid p && negb (IsValidForType p System)
  /\ IsValidForTypeRange p (Some NonDynamic)
     = IsValid p && negb (IsValidForType p Dynamic).
Proof.
  unfold IsValid, IsValidForType, IsValidForTypeRange, rangeOfSame,
    All, NonSystem, NonDynamic.
  table_bounds.
  repeat split; apply eq_iff_eq_true;
    rewrite ?orb_true_iff, ?andb_true_iff, ?negb_true_iff, ?andb_false_iff,
      ?Z.leb_le, ?Z.leb_gt; lia.
Qed.

(** X4. [NewPortForTypeRange] returns a port or an error and never both
    or neither, for every argument and range; a returned port is valid
    for the range, hence at most 65535 and set. *)
Theorem NewPortForTypeRange_port_xor_error (pi : PortInput) (ptr : option portTypeRange) :
  match NewPortForTypeRange pi ptr with
  | (Some v, None) =>
      IsValidForTypeRange v ptr = true /\ 0 <= v <= 65535 /\ IsSet v = true
  | (None, Some _) => True
  | _ => False
  end.
Proof.
  destruct (NewPortForTypeRange pi ptr) as [p [e|]] eqn:Hn;
    apply NewPortForTypeRange_result in Hn.
  - now subst p.
  - destruct Hn as (v & -> & Hv). split; [exact Hv|].
    apply IsValidForTypeRange_bounds in Hv. split; [exact Hv|].
    unfold IsSet, Invalid. apply Z.ltb_lt. lia.
Qed.

(** With a nil range no argument gives a port: the call always
    returns the nil [Port] and an error. *)
Lemma NewPortForTypeRange_nil_range_helper (pi : PortInput) :
  exists e, NewPortForTypeRange pi None = (None, Some e).
Proof.
  unfold NewPortForTypeRange. destruct pi as [s|v|s|v]; cbn; eauto.
  destruct (ParseUint s) as [n [e|]]; cbn; eauto.
Qed.

(** X5. A string argument gives the port [v] exactly when it is a
    non-empty string of decimal digits of value [v] and [v] is valid for
    the range; signs, blanks and other bytes never give a port. *)
Theorem NewPortForTypeRange_string_iff (s : string) (v : Z) (ptr : option portTypeRange) :
  NewPortForTypeRange (OfString s) ptr = (Some v, None)
  <-> decimalValue s = Some v /\ IsValidForTypeRange v ptr = true.
Proof.
  split.
  - intros H. unfold NewPortForTypeRange in H.
    destruct (ParseUint s) as [n [e|]] eqn:Hp; cbn in H; [discriminate|].
    destruct (IsValidForTypeRange n ptr) eqn:Hv; [|discriminate].
    injection H as <-. apply ParseUint_ok in Hp as [Hd _]. now split.
  - intros [Hd Hv].
    rewrite (NewPortForTypeRange_string_valid s v ptr Hd), Hv; [reflexivity|].
    apply IsValidForTypeRange_bounds in Hv. rewrite maxUint64_eq. lia.
Qed.

(** X6. A digit string whose value does not fit 64 bits never wraps
    around to a port: the call fails with the range error of
    [strconv.ParseUint], for every range. *)
Theorem NewPortForTypeRange_string_past_uint64
        (s : string) (v : Z) (ptr : option portTypeRange) :
  decimalValue s = Some v -> maxUint64 < v ->
  NewPortForTypeRange (OfString s) ptr
  = (None, Some (NumError "ParseUint" s ErrRange)).
Proof.
  intros Hd Hv. unfold NewPortForTypeRange.
  assert (Hp : ParseUint s = (maxUint64, Some ErrRange)).
  { destruct s as [|ch r]; [discriminate|].
    unfold ParseUint. apply (parseLoop_range _ 0 v); trivial.
    rewrite maxUint64_eq. lia. }
  rewrite Hp. reflexivity.
Qed.

Lemma NewPortForTypeRange_string_past_uint64_witness :
  decimalValue "18446744073709551616" = Some 18446744073709551616
  /\ maxUint64 < 18446744073709551616
  /\ NewPortForTypeRange (OfString "18446744073709551616") (Some All)
     = (None, Some (NumError "ParseUint" "18446744073709551616" ErrRange)).
Proof.
  assert (Hd : decimalValue "18446744073709551616" = Some 18446744073709551616)
    by (vm_compute; reflexivity).
  assert (Hv : maxUint64 < 18446744073709551616) by (rewrite maxUint64_eq; lia).
  split; [exact Hd|]. split; [exact Hv|].
  exact (NewPortForTypeRange_string_past_uint64 _ _ (Some All) Hd Hv).
Defined.

(** X7. The two kinds of argument agree: the decimal rendering of a
    [uint64] gives what the number itself gives, port or error, for
    every range. *)
Theorem NewPortForTypeRange_string_of_uint64 (n : Z) (ptr : option portTypeRange) :
  0 <= n <= maxUint64 ->
  NewPortForTypeRange (OfString (FormatUint n)) ptr
  = NewPortForTypeRange (OfUint64 n) ptr.
Proof.
  intros Hn. unfold NewPortForTypeRange.
  rewrite ParseUint_FormatUint by exact Hn. reflexivity.
Qed.

Lemma NewPortForTypeRange_string_of_uint64_witness :
  0 <= 70000 <= maxUint64
  /\ NewPortForTypeRange (OfString (FormatUint 70000)) (Some All)
     = NewPortForTypeRange (OfUint64 70000) (Some All).
Proof.
  assert (H : 0 <= 70000 <= maxUint64) by (rewrite maxUint64_eq; lia).
  split; [exact H | exact (NewPortForTypeRange_string_of_uint64 70000 (Some All) H)].
Defined.

(** A port accepted for a range is accepted for [All]; shared by the
    port and the address statements below. *)
Lemma NewPort_range_helper
      (pi : PortInput) (ptr : option portTypeRange) (v : port) :
  NewPortForTypeRange pi ptr = (Some v, None) -> NewPort pi = (Some v, None).
Proof.
  unfold NewPort, NewPortForTypeRange.
  destruct pi as [s|n|s|n].
  - destruct (ParseUint s) as [n [e|]]; cbn [fmap option_fmap option_map];
      [discriminate|].
    destruct (IsValidForTypeRange n ptr) eqn:Hv; [|discriminate].
    intros [= <-]. now rewrite (IsValidForTypeRange_All n ptr Hv).
  - destruct (IsValidForTypeRange n ptr) eqn:Hv; [|discriminate].
    intros [= <-]. now rewrite (IsValidForTypeRange_All n ptr Hv).
  - destruct (IsValidForTypeRange 0 ptr) eqn:Hv; [|discriminate].
    intros [= <-]. now rewrite (IsValidForTypeRange_All 0 ptr Hv).
  - destruct (IsValidForTypeRange 0 ptr) eqn:Hv; [|discriminate].
    intros [= <-]. now rewrite (IsValidForTypeRange_All 0 ptr Hv).
Qed.

(** X8. What a narrower request accepts, [NewPort] accepts: an argument
    that gives a port for a tier or for a range gives the same port
    without the restriction. *)
Theorem NewPort_accepts_what_a_range_accepts
        (pi : PortInput) (ptr : option portTypeRange) (v : port) :
  NewPortForTypeRange pi ptr = (Some v, None) -> NewPort pi = (Some v, None).
Proof. apply NewPort_range_helper. Qed.

Lemma NewPort_accepts_what_a_range_accepts_witness :
  NewPortForType (OfString "8080") Registered = (Some 8080, None)
  /\ NewPort (OfString "8080") = (Some 8080, None).
Proof.
  assert (H : NewPortForType (OfString "8080") Registered = (Some 8080, None))
    by (vm_compute; reflexivity).
  split; [exact H|].
  exact (NewPort_accepts_what_a_range_accepts (OfString "8080")
           (Some (rangeOfSame Registered)) 8080 H).
Defined.

End PortProps.

(* ===================================================================== *)
(** * Further properties of package [network]: addresses                 *)
(* ===================================================================== *)

Module AddressProps.
Import GoStrings GoStrconv GoStringsFacts GoStrconvFacts Network NetworkSpec PortProps.

Lemma Split_Colon (s : string) : Split s Colon = splitByte ":" s.
Proof. apply Split_byte. Qed.

Lemma list_split_last (l : list string) :
  l <> [] ->
  l = (firstn (List.length l - 1) l ++ [at_index l (List.length l - 1)])%list.
Proof.
  unfold at_index. induction l as [|x [|y t] IH]; [congruence | reflexivity |].
  intros _. specialize (IH ltac:(discriminate)).
  replace (List.length (x :: y :: t) - 1)%nat with (S (List.length (y :: t) - 1))
    by (cbn [List.length]; lia).
  cbn [firstn nth]. cbn [app]. f_equal. exact IH.
Qed.

Lemma at_index_app_last (es : list string) (x : string) :
  at_index (es ++ [x]) (List.length es) = x.
Proof.
  unfold at_index. rewrite app_nth2 by lia. now rewrite Nat.sub_diag.
Qed.

Lemma at_index_app_l (es : list string) (x : string) (i : nat) :
  (i < List.length es)%nat -> at_index (es ++ [x]) i = at_index es i.
Proof. intros H. unfold at_index. now apply app_nth1. Qed.

Lemma firstn_app_all (es : list string) (x : string) :
  firstn (List.length es) (es ++ [x]) = es.
Proof.
  rewrite firstn_app, firstn_all, Nat.sub_diag. cbn [firstn]. apply app_nil_r.
Qed.

(** The two shapes with a port: a last segment without colon after a
    candidate of one segment, or after a candidate whose first segment
    starts with the left bracket and whose last one ends with the right
    bracket. *)
Lemma parseAddressPort_with_port (cand po : string) :
  Index po Colon = None ->
  let es := Split cand Colon in
  List.length es = 1%nat
  \/ (HasPrefix (at_index es 0) LeftSquareBracket = true
      /\ HasSuffix (at_index es (List.length es - 1)) RightSquareBracket = true) ->
  parseAddressPort (cand ++ Colon ++ po)
  = (TrimSuffix (TrimPrefix cand LeftSquareBracket) RightSquareBracket, po, true).
Proof.
  intros Hpo es Hshape.
  assert (Hes : (1 <= List.length es)%nat) by apply Split_nonempty.
  assert (Hsplit : Split (cand ++ Colon ++ po) Colon = (es ++ [po])%list).
  { unfold es. rewrite !Split_Colon.
    change (cand ++ Colon ++ po)%string with (cand ++ String ":" po)%string.
    rewrite splitByte_app. f_equal. now apply splitByte_no_byte. }
  unfold parseAddressPort. rewrite Hsplit, length_app. cbn [List.length].
  destruct (Nat.ltb_spec (List.length es + 1) 2) as [Hlt|_]; [lia|].
  replace (List.length es + 1 - 2)%nat with (List.length es - 1)%nat by lia.
  replace (List.length es - 1 + 1)%nat with (List.length es) by lia.
  rewrite at_index_app_last, firstn_app_all.
  rewrite !at_index_app_l by lia.
  assert (Hc : (List.length es - 1 =? 0)%nat
               || (HasPrefix (at_index es 0) LeftSquareBracket
                   && HasSuffix (at_index es (List.length es - 1)) RightSquareBracket)
               = true).
  { apply orb_true_iff. destruct Hshape as [H1|[H1 H2]].
    - left. apply Nat.eqb_eq. lia.
    - right. now rewrite H1, H2. }
  rewrite Hc. unfold es. now rewrite Join_Split.
Qed.

Lemma decimalFrom_no_colon (s : string) (n v : Z) :
  decimalFrom s n = Some v -> Index s Colon = None.
Proof.
  revert n; induction s as [|ch r IH]; intros n; [reflexivity|].
  cbn [decimalFrom]. destruct (isDigit ch) eqn:Hd; [|discriminate].
  intros H. unfold Colon. rewrite Index_byte_cons.
  destruct (Ascii.eqb_spec ch ":") as [->|_]; [discriminate Hd|].
  fold Colon. now rewrite (IH _ H).
Qed.

Lemma FormatUint_no_colon (n : Z) :
  0 <= n <= maxUint64 -> Index (FormatUint n) Colon = None.
Proof.
  intros Hn. pose proof (ParseUint_FormatUint n Hn) as Hp.
  apply ParseUint_ok in Hp as [Hd _].
  unfold decimalValue in Hd. destruct (FormatUint n); [discriminate|].
  now apply decimalFrom_no_colon in Hd.
Qed.

(** X9. The form [host:port]: when neither part holds a colon, the part
    before the colon is the address (its brackets stripped) and the part
    after it is the port. *)
Theorem parseAddressPort_host_port (a po : string) :
  Index a Colon = None -> Index po Colon = None ->
  parseAddressPort (a ++ Colon ++ po)
  = (TrimSuffix (TrimPrefix a LeftSquareBracket) RightSquareBracket, po, true).
Proof.
  intros Ha Hpo. apply parseAddressPort_with_port; [exact Hpo|].
  left. rewrite Split_Colon, splitByte_no_byte by exact Ha. reflexivity.
Qed.

Lemma parseAddressPort_host_port_witness :
  Index "192.0.2.1" Colon = None /\ Index "8080" Colon = None
  /\ parseAddressPort ("192.0.2.1" ++ Colon ++ "8080")
     = (TrimSuffix (TrimPrefix "192.0.2.1" LeftSquareBracket) RightSquareBracket,
        "8080", true).
Proof.
  assert (Ha : Index "192.0.2.1" Colon = None) by (vm_compute; reflexivity).
  assert (Hp : Index "8080" Colon = None) by (vm_compute; reflexivity).
  split; [exact Ha|]. split; [exact Hp|].
  exact (parseAddressPort_host_port "192.0.2.1" "8080" Ha Hp).
Defined.

(** The bracketed shape of [parseAddressPort_with_port], shared by the
    statements on splitting and on parsing below. *)
Lemma parseAddressPort_bracketed_helper (a po : string) :
  Index po Colon = None ->
  parseAddressPort (LeftSquareBracket ++ a ++ RightSquareBracket ++ Colon ++ po)
  = (a, po, true).
Proof.
  intros Hpo.
  change (LeftSquareBracket ++ a ++ RightSquareBracket ++ Colon ++ po)%string
    with (String "[" (a ++ String "]" (Colon ++ po)))%string.
  replace (String "[" (a ++ String "]" (Colon ++ po)))%string
    with ((String "[" a ++ String "]" EmptyString) ++ Colon ++ po)%string
    by (rewrite append_assoc; reflexivity).
  rewrite parseAddressPort_with_port; [| exact Hpo |].
  - f_equal. f_equal.
    change (String "[" a ++ String "]" EmptyString)%string
      with (LeftSquareBracket ++ (a ++ RightSquareBracket))%string.
    rewrite TrimPrefix_app. apply TrimSuffix_app.
  - right. rewrite Split_Colon.
    destruct (splitByte_last ":" "]" (String "[" a) eq_refl) as (init & l & Hl).
    destruct (splitByte_first ":" "[" (a ++ String "]" EmptyString) eq_refl)
      as (h & t & Hf).
    rewrite append_cons in Hl. split.
    + rewrite append_cons, Hf. apply (HasPrefix_app LeftSquareBracket h).
    + rewrite append_cons, Hl, length_app. cbn [List.length].
      replace (List.length init + 1 - 1)%nat with (List.length init) by lia.
      rewrite at_index_app_last. apply HasSuffix_app.
Qed.

(** X10. The form [[address]:port]: whatever stands between the
    brackets, colons included, is the address, and the colon-free part
    after the last colon is the port. *)
Theorem parseAddressPort_bracketed (a po : string) :
  Index po Colon = None ->
  parseAddressPort (LeftSquareBracket ++ a ++ RightSquareBracket ++ Colon ++ po)
  = (a, po, true).
Proof. apply parseAddressPort_bracketed_helper. Qed.

Lemma parseAddressPort_bracketed_witness :
  Index "443" Colon = None
  /\ parseAddressPort
       (LeftSquareBracket ++ "2001:db8::1" ++ RightSquareBracket ++ Colon ++ "443")
     = ("2001:db8::1", "443", true).
Proof.
  assert (Hp : Index "443" Colon = None) by (vm_compute; reflexivity).
  split; [exact Hp | exact (parseAddressPort_bracketed "2001:db8::1" "443" Hp)].
Defined.

(** X11. Whenever a port is recognized, the input is an address
    candidate, one colon and the port; the port holds no colon and the
    returned address is the candidate without its brackets. *)
Theorem parseAddressPort_port_reassembles (s addr po : string) :
  parseAddressPort s = (addr, po, true) ->
  Index po Colon = None
  /\ exists cand,
       s = (cand ++ Colon ++ po)%string
       /\ addr = TrimSuffix (TrimPrefix cand LeftSquareBracket) RightSquareBracket.
Proof.
  unfold parseAddressPort.
  pose proof (Split_nonempty s Colon) as Hne.
  pose proof (Join_Split s Colon) as Hjoin.
  pose proof (splitByte_segments ":" s) as Hseg. rewrite <- Split_Colon in Hseg.
  set (elems := Split s Colon) in *.
  destruct (Nat.ltb_spec (List.length elems) 2) as [Hlt|Hge]; [discriminate|].
  replace (List.length elems - 2 + 1)%nat with (List.length elems - 1)%nat by lia.
  destruct ((List.length elems - 2 =? 0)%nat || _); [|discriminate].
  intros [= <- <-].
  assert (Hel : elems <> []) by (destruct elems; [simpl in Hge; lia | discriminate]).
  split.
  - apply Hseg. apply nth_In. lia.
  - exists (Join (firstn (List.length elems - 1) elems) Colon). split; [|reflexivity].
    rewrite <- Join_snoc.
    + rewrite <- list_split_last by exact Hel. now symmetry.
    + intros H0. apply (f_equal (@List.length string)) in H0.
      rewrite length_firstn in H0. simpl in H0. lia.
Qed.

Lemma parseAddressPort_port_reassembles_witness :
  parseAddressPort "[::1]:80" = ("::1", "80", true)
  /\ Index "80" Colon = None
  /\ exists cand,
       "[::1]:80" = (cand ++ Colon ++ "80")%string
       /\ "::1" = TrimSuffix (TrimPrefix cand LeftSquareBracket) RightSquareBracket.
Proof.
  assert (H : parseAddressPort "[::1]:80" = ("::1", "80", true))
    by (vm_compute; reflexivity).
  split; [exact H | exact (parseAddressPort_port_reassembles _ _ _ H)].
Defined.

Section ParseAddressProps.

Variable ParseIP : string -> bool.

(** X12. What a successful call returns has been validated: the address
    is the stripped address part of the input and [net.ParseIP] accepts
    it; a returned port comes from an input with a port segment, is the
    decimal value of that segment and is valid for the range; and the nil
    [Port] comes from an input without port segment only. *)
Theorem ParseAddress_success_is_validated
        (s : string) (ptr : option portTypeRange) (address : string) (p : Port) :
  ParseAddressForPortTypeRange ParseIP s ptr = (address, p, None) ->
  address = fst (fst (parseAddressPort s))
  /\ ParseIP address = true
  /\ match p with
     | Some v =>
         snd (parseAddressPort s) = true
         /\ decimalValue (snd (fst (parseAddressPort s))) = Some v
         /\ IsValidForTypeRange v ptr = true
     | None => snd (parseAddressPort s) = false
     end.
Proof.
  unfold ParseAddressForPortTypeRange.
  destruct (parseAddressPort s) as [[addr po] hasPort]. cbn [fst snd].
  destruct (ParseIP addr) eqn:Hip; cbn [negb]; [|discriminate].
  destruct hasPort.
  - unfold NewPortForTypeRange.
    destruct (ParseUint po) as [n [e|]] eqn:Hp; cbn [fmap option_fmap option_map];
      [discriminate|].
    destruct (IsValidForTypeRange n ptr) eqn:Hv; [|discriminate].
    intros [= <- <-]. apply ParseUint_ok in Hp as [Hd _]. auto.
  - intros [= <- <-]. auto.
Qed.

(** A bad address is reported first: when [net.ParseIP] rejects the
    stripped address part, the error names that part, whatever the port
    segment and the range are. *)
Lemma ParseAddress_bad_address_first (s : string) (ptr : option portTypeRange) :
  ParseIP (fst (fst (parseAddressPort s))) = false ->
  ParseAddressForPortTypeRange ParseIP s ptr
  = (EmptyString, None,
     Some (Errorf ("invalid IP address '" ++ fst (fst (parseAddressPort s)) ++ "'"))).
Proof.
  unfold ParseAddressForPortTypeRange.
  destruct (parseAddressPort s) as [[addr po] hasPort]. cbn [fst].
  intros ->. reflexivity.
Qed.

(** X13. The range only matters when there is a port: an input without
    port segment gives the same result for every range, the nil one
    included, while with the nil range every input with a port segment
    fails. *)
Theorem ParseAddress_range_only_for_ports (s : string) :
  (snd (parseAddressPort s) = false ->
   forall ptr1 ptr2,
     ParseAddressForPortTypeRange ParseIP s ptr1
     = ParseAddressForPortTypeRange ParseIP s ptr2)
  /\ (snd (parseAddressPort s) = true ->
      exists e, ParseAddressForPortTypeRange ParseIP s None
                = (EmptyString, None, Some e)).
Proof.
  unfold ParseAddressForPortTypeRange.
  destruct (parseAddressPort s) as [[addr po] hasPort]. cbn [snd].
  split.
  - intros -> ptr1 ptr2. reflexivity.
  - intros ->. destruct (ParseIP addr); cbn [negb]; [|eauto].
    destruct (NewPortForTypeRange_nil_range_helper (OfString po)) as [e ->]. eauto.
Qed.

(** X14. Writing and parsing back: for every address that [net.ParseIP]
    accepts and every port valid for the range, the text
    [[address]:port] with the port in decimal parses to that address and
    that port. *)
Theorem ParseAddress_of_bracketed_text
        (a : string) (p : port) (ptr : option portTypeRange) :
  ParseIP a = true -> IsValidForTypeRange p ptr = true ->
  ParseAddressForPortTypeRange ParseIP
    (LeftSquareBracket ++ a ++ RightSquareBracket ++ Colon ++ FormatUint p) ptr
  = (a, Some p, None).
Proof.
  intros Hip Hv.
  assert (Hp : 0 <= p <= maxUint64).
  { apply IsValidForTypeRange_bounds in Hv. rewrite maxUint64_eq. lia. }
  unfold ParseAddressForPortTypeRange.
  rewrite parseAddressPort_bracketed_helper by (now apply FormatUint_no_colon).
  rewrite Hip. cbn [negb]. unfold NewPortForTypeRange.
  rewrite ParseUint_FormatUint by exact Hp. cbn [fmap option_fmap option_map].
  now rewrite Hv.
Qed.

(** X15. What [ParseAddressForPortType] or [ParseAddressForPortTypeRange]
    accept, [ParseAddress] accepts with the same address and port. *)
Theorem ParseAddress_accepts_what_a_range_accepts
        (s : string) (ptr : option portTypeRange) (address : string) (p : Port) :
  ParseAddressForPortTypeRange ParseIP s ptr = (address, p, None) ->
  ParseAddress ParseIP s = (address, p, None).
Proof.
  unfold ParseAddress, ParseAddressForPortTypeRange.
  destruct (parseAddressPort s) as [[addr po] hasPort].
  destruct (ParseIP addr); cbn [negb]; [|discriminate].
  destruct hasPort; [|trivial].
  destruct (NewPortForTypeRange (OfString po) ptr) as [p' [e|]] eqn:Hn;
    [discriminate|].
  intros [= <- <-].
  pose proof Hn as Hr. apply NewPortForTypeRange_result in Hr as (v & -> & _).
  pose proof (NewPort_range_helper _ _ _ Hn) as Hall. unfold NewPort in Hall.
  now rewrite Hall.
Qed.

End ParseAddressProps.

Lemma ParseAddress_success_is_validated_witness :
  ParseAddressForPortTypeRange dottedQuad "192.0.2.1:8080" (Some NonSystem)
  = ("192.0.2.1", Some 8080, None)
  /\ "192.0.2.1" = fst (fst (parseAddressPort "192.0.2.1:8080"))
  /\ dottedQuad "192.0.2.1" = true
  /\ snd (parseAddressPort "192.0.2.1:8080") = true
  /\ decimalValue (snd (fst (parseAddressPort "192.0.2.1:8080"))) = Some 8080
  /\ IsValidForTypeRange 8080 (Some NonSystem) = true.
Proof.
  assert (H : ParseAddressForPortTypeRange dottedQuad "192.0.2.1:8080" (Some NonSystem)
              = ("192.0.2.1", Some 8080, None)) by (vm_compute; reflexivity).
  split; [exact H|].
  exact (ParseAddress_success_is_validated dottedQuad _ _ _ _ H).
Defined.

Lemma ParseAddress_bad_address_first_witness :
  dottedQuad (fst (fst (parseAddressPort "999.999.999.999:99999"))) = false
  /\ ParseAddressForPortTypeRange dottedQuad "999.999.999.999:99999" (Some All)
     = (EmptyString, None,
        Some (Errorf ("invalid IP address '"
                      ++ fst (fst (parseAddressPort "999.999.999.999:99999")) ++ "'"))).
Proof.
  assert (H : dottedQuad (fst (fst (parseAddressPort "999.999.999.999:99999"))) = false)
    by (vm_compute; reflexivity).
  split; [exact H|].
  exact (ParseAddress_bad_address_first dottedQuad "999.999.999.999:99999" (Some All) H).
Defined.

Lemma ParseAddress_range_only_for_ports_witness :
  snd (parseAddressPort "10.0.0.1") = false
  /\ ParseAddressForPortTypeRange dottedQuad "10.0.0.1" None
     = ParseAddressForPortTypeRange dottedQuad "10.0.0.1" (Some All)
  /\ snd (parseAddressPort "10.0.0.1:80") = true
  /\ exists e, ParseAddressForPortTypeRange dottedQuad "10.0.0.1:80" None
               = (EmptyString, None, Some e).
Proof.
  assert (H1 : snd (parseAddressPort "10.0.0.1") = false) by (vm_compute; reflexivity).
  assert (H2 : snd (parseAddressPort "10.0.0.1:80") = true) by (vm_compute; reflexivity).
  split; [exact H1|]. split.
  - exact (proj1 (ParseAddress_range_only_for_ports dottedQuad "10.0.0.1") H1 None (Some All)).
  - split; [exact H2|].
    exact (proj2 (ParseAddress_range_only_for_ports dottedQuad "10.0.0.1:80") H2).
Defined.

Lemma ParseAddress_of_bracketed_text_witness :
  dottedQuad "10.0.0.1" = true
  /\ IsValidForTypeRange 443 (Some All) = true
  /\ ParseAddressForPortTypeRange dottedQuad
       (LeftSquareBracket ++ "10.0.0.1" ++ RightSquareBracket ++ Colon ++ FormatUint 443)
       (Some All)
     = ("10.0.0.1", Some 443, None).
Proof.
  assert (H1 : dottedQuad "10.0.0.1" = true) by (vm_compute; reflexivity).
  assert (H2 : IsValidForTypeRange 443 (Some All) = true) by (vm_compute; reflexivity).
  split; [exact H1|]. split; [exact H2|].
  exact (ParseAddress_of_bracketed_text dottedQuad "10.0.0.1" 443 (Some All) H1 H2).
Defined.

Lemma ParseAddress_accepts_what_a_range_accepts_witness :
  ParseAddressForPortType dottedQuad "192.0.2.1:8080" Registered
  = ("192.0.2.1", Some 8080, None)
  /\ ParseAddress dottedQuad "192.0.2.1:8080" = ("192.0.2.1", Some 8080, None).
Proof.
  assert (H : ParseAddressForPortType dottedQuad "192.0.2.1:8080" Registered
              = ("192.0.2.1", Some 8080, None)) by (vm_compute; reflexivity).
  split; [exact H|].
  exact (ParseAddress_accepts_what_a_range_accepts dottedQuad "192.0.2.1:8080"
           (Some (rangeOfSame Registered)) _ _ H).
Defined.

End AddressProps.

(* ===================================================================== *)
(** * Further properties of package [config]                             *)
(* ===================================================================== *)

Module ConfigProps.
Import GoStrings Config ConfigSpec.

Lemma policies_lookup_known (k : string) (b : Backoff) :
  policies !! k = Some b -> In k knownPolicies.
Proof.
  unfold policies, knownPolicies. intros H.
  repeat (apply lookup_insert_Some in H as [[<- _]|[_ H]]; [simpl; tauto|]).
  now rewrite lookup_empty in H.
Qed.

Lemma policies_known_lookup (k : string) :
  In k knownPolicies -> is_Some (policies !! k).
Proof.
  intros H. repeat (destruct H as [<-|H]; [eexists; reflexivity|]). destruct H.
Qed.

(** X16. The policy table has exactly five keys: a lookup finds a
    backoff function for the empty name, [default], [exponential],
    [jitter] and [const], and for no other name. *)
Theorem policies_keys (k : string) :
  is_Some (policies !! k) <-> In k knownPolicies.
Proof.
  split; [intros [b Hb]; now apply policies_lookup_known in Hb|].
  apply policies_known_lookup.
Qed.

Section ValidateProps.

Variable mapUnicodeToLower : string -> string.

(** X17. [Validate] on a non-nil configuration returns no error exactly
    when [WaitMin] and [MaxAttempts] are positive and the lower-cased
    policy name is a key of the table; [WaitMax] plays no part. *)
Theorem Validate_succeeds_iff (rc : RetryConfig) :
  snd (Validate mapUnicodeToLower (Some rc)) = None
  <-> 0 < WaitMin rc /\ 0 < MaxAttempts rc
      /\ In (ToLower mapUnicodeToLower (Policy rc)) knownPolicies.
Proof.
  unfold Validate.
  destruct (validate mapUnicodeToLower rc) as [c err] eqn:Hv. cbn [snd].
  change err with (snd (c, err)). rewrite <- Hv, validate_ok_iff.
  unfold lookupPolicy.
  split; intros (H1 & H2 & H3); repeat split; trivial.
  - destruct H3 as [b Hb]. now apply policies_lookup_known in Hb.
  - now apply policies_known_lookup.
Qed.

(** X18. [Validate] leaves the four settings of the configuration as
    they are; it marks the configuration valid exactly when it returns no
    error, and then the backoff function is set, to the table entry of
    the lower-cased policy name; when a duration or the attempts check
    fails, the backoff function is not touched. *)
Theorem validate_invariants (rc : RetryConfig) :
  let rc' := fst (validate mapUnicodeToLower rc) in
  let err := snd (validate mapUnicodeToLower rc) in
  (WaitMin rc' = WaitMin rc /\ WaitMax rc' = WaitMax rc
   /\ MaxAttempts rc' = MaxAttempts rc /\ Policy rc' = Policy rc)
  /\ (isValid rc' = true <-> err = None)
  /\ (err = None ->
      is_Some (backoff rc')
      /\ backoff rc' = policies !! ToLower mapUnicodeToLower (Policy rc))
  /\ (WaitMin rc <= 0 \/ MaxAttempts rc <= 0 -> backoff rc' = backoff rc).
Proof.
  cbv zeta. unfold validate, validDurations, validPositive, lookupPolicy.
  destruct (Z.ltb_spec 0 (WaitMin rc)) as [H1|H1]; cbn [negb].
  - rewrite Z.leb_refl. cbn [negb].
    destruct (Z.leb_spec (MaxAttempts rc) 0) as [H2|H2].
    + cbn. repeat split; try discriminate; auto.
    + destruct (policies !! ToLower mapUnicodeToLower (Policy rc)) as [b|] eqn:Hb;
        cbn; repeat split; try discriminate; eauto; lia.
  - cbn. repeat split; try discriminate; auto.
Qed.

(** X19. A second [Validate] changes nothing: validating the
    configuration that [Validate] left gives that configuration and the
    same error again. *)
Theorem validate_idempotent (rc : RetryConfig) :
  validate mapUnicodeToLower (fst (validate mapUnicodeToLower rc))
  = validate mapUnicodeToLower rc.
Proof.
  unfold validate, validDurations, validPositive.
  destruct (0 <? WaitMin rc) eqn:H1; cbn [negb].
  - rewrite Z.leb_refl. cbn [negb].
    destruct (MaxAttempts rc <=? 0) eqn:H2.
    + cbn. rewrite H1, Z.leb_refl, H2. reflexivity.
    + destruct (lookupPolicy mapUnicodeToLower (Policy rc)) as [b|] eqn:Hb;
        cbn; rewrite H1, Z.leb_refl, H2; cbn; rewrite Hb; reflexivity.
  - cbn. rewrite H1. reflexivity.
Qed.

Section NewClientProps.

Variable RoundTripper : Type.
Variable defaultClient : Client RoundTripper.

(** [NewClient] never builds a client from a configuration that is
    not marked valid: it returns the error of the invalid configuration,
    before it looks at the logger. *)
Lemma NewClient_refuses_unvalidated
        (r : RetryConfig) (rt : RoundTripper) (logger : loggerArg) :
  isValid r = false ->
  NewClient RoundTripper defaultClient (Some r) rt logger
  = (None, Some (Errorf "retry configuration is not valid" [])).
Proof. intros H. unfold NewClient. now rewrite H. Qed.

(** X20. [Validate] then [NewClient]: after a [Validate] without error,
    [NewClient] with no logger or a logger of the library builds a client
    with the waits and attempts of the configuration, the backoff
    function of its policy name, the given transport and the logger. *)
Theorem NewClient_after_Validate
        (r : RetryConfig) (rt : RoundTripper) (logger : loggerArg) :
  snd (validate mapUnicodeToLower r) = None ->
  (forall t, logger <> OtherLogger t) ->
  exists b,
    policies !! ToLower mapUnicodeToLower (Policy r) = Some b
    /\ NewClient RoundTripper defaultClient
         (Some (fst (validate mapUnicodeToLower r))) rt logger
       = (Some (mkClient RoundTripper (WaitMin r) (WaitMax r) (MaxAttempts r)
                  (Some b) (Some rt) logger), None).
Proof.
  intros Hok Hlog.
  pose proof (validate_ok_iff mapUnicodeToLower r) as Hiff.
  apply Hiff in Hok as (H1 & H2 & [b Hb]).
  exists b. split; [exact Hb|].
  unfold validate, validDurations, validPositive.
  destruct (Z.ltb_spec 0 (WaitMin r)); [|lia]. cbn [negb].
  rewrite Z.leb_refl. cbn [negb].
  destruct (Z.leb_spec (MaxAttempts r) 0); [lia|].
  rewrite Hb. cbn.
  destruct logger; try reflexivity. now destruct (Hlog typeName).
Qed.

(** X21. A [Validate] that returns an error blocks [NewClient], also for
    a configuration that an earlier [Validate] had marked valid. *)
Theorem NewClient_after_failed_Validate
        (r : RetryConfig) (e : error) (rt : RoundTripper) (logger : loggerArg) :
  snd (validate mapUnicodeToLower r) = Some e ->
  NewClient RoundTripper defaultClient
    (Some (fst (validate mapUnicodeToLower r))) rt logger
  = (None, Some (Errorf "retry configuration is not valid" [])).
Proof.
  intros He. unfold NewClient.
  assert (Hv : isValid (fst (validate mapUnicodeToLower r)) = false).
  { unfold validate in *.
    destruct (validDurations 0 (WaitMin r) false); [reflexivity|].
    destruct (validDurations (WaitMin r) (WaitMin r) true); [reflexivity|].
    destruct (validPositive (MaxAttempts r)); [reflexivity|].
    destruct (lookupPolicy mapUnicodeToLower (Policy r)); [discriminate | reflexivity]. }
  now rewrite Hv.
Qed.

(** X22. [NewClient] returns a client exactly when the configuration is
    nil or marked valid and the logger is nil or one of the two logger
    kinds of the library; with a nil configuration the client keeps the
    waits, attempts and backoff function of the library. *)
Theorem NewClient_succeeds_iff
        (rc : option RetryConfig) (rt : RoundTripper) (logger : loggerArg) :
  (is_Some (fst (NewClient RoundTripper defaultClient rc rt logger))
   <-> (forall r, rc = Some r -> isValid r = true)
       /\ (forall t, logger <> OtherLogger t))
  /\ (rc = None -> (forall t, logger <> OtherLogger t) ->
      NewClient RoundTripper defaultClient rc rt logger
      = (Some (mkClient RoundTripper (RetryWaitMin _ defaultClient)
                 (RetryWaitMax _ defaultClient) (RetryMax _ defaultClient)
                 (Backoff_ _ defaultClient) (Some rt) logger), None)).
Proof.
  split.
  - unfold NewClient. destruct rc as [r|].
    + destruct (isValid r) eqn:Hv; cbn [negb].
      * destruct logger; cbn [fst]; split;
          try (intros _; split; [intros ? [= <-]; exact Hv | discriminate]);
          try (intros _; eexists; reflexivity).
        -- intros [c Hc]. discriminate.
        -- intros [_ H]. now destruct (H typeName).
      * cbn [fst]. split; [intros [c Hc]; discriminate|].
        intros [H _]. specialize (H r eq_refl). congruence.
    + destruct logger; cbn [fst]; split;
        try (intros _; split; [discriminate | discriminate]);
        try (intros _; eexists; reflexivity).
      * intros [c Hc]. discriminate.
      * intros [_ H]. now destruct (H typeName).
  - intros -> Hlog. unfold NewClient.
    destruct logger; try reflexivity. now destruct (Hlog typeName).
Qed.

End NewClientProps.

End ValidateProps.

Lemma NewClient_refuses_unvalidated_witness :
  isValid sampleConfig = false
  /\ NewClient unit sampleDefaultClient (Some sampleConfig) tt StdLogger
     = (None, Some (Errorf "retry configuration is not valid" [])).
Proof.
  split; [reflexivity|].
  exact (NewClient_refuses_unvalidated unit sampleDefaultClient sampleConfig tt
           StdLogger eq_refl).
Defined.

Lemma NewClient_after_Validate_witness :
  snd (validate (fun s => s) sampleConfig) = None
  /\ (forall t, StdLogger <> OtherLogger t)
  /\ exists b,
       policies !! ToLower (fun s => s) (Policy sampleConfig) = Some b
       /\ NewClient unit sampleDefaultClient
            (Some (fst (validate (fun s => s) sampleConfig))) tt StdLogger
          = (Some (mkClient unit (WaitMin sampleConfig) (WaitMax sampleConfig)
                     (MaxAttempts sampleConfig) (Some b) (Some tt) StdLogger), None).
Proof.
  assert (H1 : snd (validate (fun s => s) sampleConfig) = None)
    by (vm_compute; reflexivity).
  assert (H2 : forall t, StdLogger <> OtherLogger t) by discriminate.
  split; [exact H1|]. split; [exact H2|].
  exact (NewClient_after_Validate (fun s => s) unit sampleDefaultClient sampleConfig
           tt StdLogger H1 H2).
Defined.

Lemma NewClient_after_failed_Validate_witness :
  snd (validate (fun s => s) (withPolicy sampleConfig "linear"))
  = Some (Errorf "invalid backoff policy %s" [ArgString "linear"])
  /\ NewClient unit sampleDefaultClient
       (Some (fst (validate (fun s => s) (withPolicy sampleConfig "linear")))) tt NilLogger
     = (None, Some (Errorf "retry configuration is not valid" [])).
Proof.
  assert (H : snd (validate (fun s => s) (withPolicy sampleConfig "linear"))
              = Some (Errorf "invalid backoff policy %s" [ArgString "linear"]))
    by (vm_compute; reflexivity).
  split; [exact H|].
  exact (NewClient_after_failed_Validate (fun s => s) unit sampleDefaultClient
           (withPolicy sampleConfig "linear") _ tt NilLogger H).
Defined.

End ConfigProps.
